(** * CharacterSet: the character-class rule of the grammar compiler

    A shallow embedding of [src/compiler/rules/character_set.cc] and the
    properties of its set algebra, range view and ordering.

    - [std::set<uint32_t>] is an ordered container of unique keys; it is
      modelled as the list of its keys in iteration order (ascending), with
      [USet.wf] the container's own invariant.
    - [uint32_t] is [Z] with wrap-around modulo [2^32] written out where the
      code computes ([c++], [c - 1], [c - 2]).
    - the two [for (c = min; c <= max; c++)] loops are modelled with fuel:
      [None] means the loop has not left yet. *)

From Stdlib Require Import ZArith List Bool Lia.
Import ListNotations.
Open Scope Z_scope.

(** ** Machine integers *)

Definition UINT32_MOD : Z := 4294967296.
Definition UINT32_MAX : Z := 4294967295.

Definition wrap32 (z : Z) : Z := z mod UINT32_MOD.

Definition is_uint32 (z : Z) : Prop := 0 <= z < UINT32_MOD.

(** ** [std::set<uint32_t>] *)

Module USet.

Definition t : Type := list Z.

Definition empty : t := [].

(** [s.count(c)] *)
Fixpoint count (c : Z) (s : t) : bool :=
  match s with
  | [] => false
  | x :: rest => if c =? x then true else count c rest
  end.

(** [s.insert(c)]: the new container and [.second], true when [c] was new. *)
Fixpoint insert_key (c : Z) (s : t) : t :=
  match s with
  | [] => [c]
  | x :: rest =>
      if c <? x then c :: s
      else if c =? x then s
      else x :: insert_key c rest
  end.

Definition insert (c : Z) (s : t) : t * bool := (insert_key c s, negb (count c s)).

(** [s.erase(c)]: the new container and the number of keys removed. *)
Fixpoint erase_key (c : Z) (s : t) : t :=
  match s with
  | [] => []
  | x :: rest => if c =? x then erase_key c rest else x :: erase_key c rest
  end.

Definition erase (c : Z) (s : t) : t * Z :=
  (erase_key c s, if count c s then 1 else 0).

(** [s.empty()] *)
Definition is_nil (s : t) : bool :=
  match s with [] => true | _ :: _ => false end.

(** [a < b] on containers: [std::lexicographical_compare]. *)
Fixpoint lt (a b : t) : bool :=
  match a, b with
  | _, [] => false
  | [], _ :: _ => true
  | x :: a', y :: b' =>
      if x <? y then true
      else if y <? x then false
      else lt a' b'
  end.

(** The container's invariant: keys strictly ascending, each a [uint32_t]. *)
Fixpoint ascending_from (lo : Z) (s : t) : Prop :=
  match s with
  | [] => True
  | x :: rest => lo < x /\ ascending_from x rest
  end.

Definition wf (s : t) : Prop :=
  ascending_from (-1) s /\ Forall is_uint32 s.

End USet.

(** ** The file's static helpers *)

(** [add_range]: [for (uint32_t c = min; c <= max; c++) characters->insert(c);] *)
Fixpoint add_range (fuel : nat) (characters : USet.t) (c max : Z) : option USet.t :=
  match fuel with
  | O => None
  | S fuel' =>
      if c <=? max
      then add_range fuel' (fst (USet.insert c characters)) (wrap32 (c + 1)) max
      else Some characters
  end.

(** [remove_range]: [for (uint32_t c = min; c <= max; c++) characters->erase(c);] *)
Fixpoint remove_range (fuel : nat) (characters : USet.t) (c max : Z) : option USet.t :=
  match fuel with
  | O => None
  | S fuel' =>
      if c <=? max
      then remove_range fuel' (fst (USet.erase c characters)) (wrap32 (c + 1)) max
      else Some characters
  end.

(** [remove_chars(left, right)]: the pair of the updated [*left] and the
    returned set of keys that were erased from it. *)
Definition remove_chars (left right : USet.t) : USet.t * USet.t :=
  fold_left
    (fun (acc : USet.t * USet.t) (c : Z) =>
       let (l, result) := acc in
       let (l', erased) := USet.erase c l in
       if erased =? 0 then (l', result)
       else (l', fst (USet.insert c result)))
    right (left, USet.empty).

(** [add_chars(left, right)]: the pair of the updated [*left] and the
    returned set of keys that were newly inserted into it. *)
Definition add_chars (left right : USet.t) : USet.t * USet.t :=
  fold_left
    (fun (acc : USet.t * USet.t) (c : Z) =>
       let (l, result) := acc in
       let (l', fresh) := USet.insert c l in
       if fresh then (l', fst (USet.insert c result))
       else (l', result))
    right (left, USet.empty).

(** ** [CharacterRange] *)

(** Modelled from the spec: the struct [CharacterRange] is declared in a
    header that is not part of this file; a range is a closed interval
    [[min, max]] of code points, and the code here reads and writes its
    fields [min] and [max]. *)
Record CharacterRange : Type := mkRange { rmin : Z; rmax : Z }.

(** Modelled from the spec: the one-argument constructor [CharacterRange(c)],
    declared with the struct, is the single-point range [[c, c]]. *)
Definition CharacterRange_of (c : Z) : CharacterRange := mkRange c c.

(** ** [std::vector<CharacterRange>] as the list of its elements in order *)

Module Vec.

Definition t : Type := list CharacterRange.

Definition size (v : t) : Z := Z.of_nat (length v).

Definition dummy : CharacterRange := mkRange 0 0.

(** [v[i]] *)
Definition at_ (v : t) (i : Z) : CharacterRange := nth (Z.to_nat i) v dummy.

(** [v.back()] *)
Definition back (v : t) : CharacterRange := last v dummy.

(** [v.pop_back()] *)
Definition pop_back (v : t) : t := removelast v.

(** [v.push_back(r)] *)
Definition push_back (v : t) (r : CharacterRange) : t := v ++ [r].

(** [v.back().max = c] *)
Definition set_back_max (v : t) (c : Z) : t :=
  removelast v ++ [mkRange (rmin (back v)) c].

End Vec.

(** [consolidate_ranges]: one iteration of the loop body, then the loop. *)
Definition consolidate_step (result : Vec.t) (c : Z) : Vec.t :=
  let size := Vec.size result in
  if (2 <=? size) && (rmax (Vec.at_ result (size - 2)) =? wrap32 (c - 2)) then
    Vec.set_back_max (Vec.pop_back result) c
  else if 1 <=? size then
    let last := Vec.back result in
    if (rmin last <? rmax last) && (rmax last =? wrap32 (c - 1))
    then Vec.set_back_max result c
    else Vec.push_back result (CharacterRange_of c)
  else Vec.push_back result (CharacterRange_of c).

Definition consolidate_ranges (chars : USet.t) : Vec.t :=
  fold_left consolidate_step chars [].

(** ** [CharacterSet] *)

Record CharacterSet : Type := mkCharacterSet {
  includes_all : bool;
  included_chars : USet.t;
  excluded_chars : USet.t
}.

(** [CharacterSet::CharacterSet()] *)
Definition CharacterSet_new : CharacterSet :=
  mkCharacterSet false USet.empty USet.empty.

(** [operator<] *)
Definition CharacterSet_lt (a b : CharacterSet) : bool :=
  if negb (includes_all a) && includes_all b then true
  else if includes_all a && negb (includes_all b) then false
  else if USet.lt (included_chars a) (included_chars b) then true
  else if USet.lt (included_chars b) (included_chars a) then false
  else USet.lt (excluded_chars a) (excluded_chars b).

Definition include_all (s : CharacterSet) : CharacterSet :=
  mkCharacterSet true USet.empty [0].

Definition include (fuel : nat) (min max : Z) (s : CharacterSet) : option CharacterSet :=
  if includes_all s then
    match remove_range fuel (excluded_chars s) min max with
    | Some ex => Some (mkCharacterSet (includes_all s) (included_chars s) ex)
    | None => None
    end
  else
    match add_range fuel (included_chars s) min max with
    | Some inc => Some (mkCharacterSet (includes_all s) inc (excluded_chars s))
    | None => None
    end.

Definition exclude (fuel : nat) (min max : Z) (s : CharacterSet) : option CharacterSet :=
  if includes_all s then
    match add_range fuel (excluded_chars s) min max with
    | Some ex => Some (mkCharacterSet (includes_all s) (included_chars s) ex)
    | None => None
    end
  else
    match remove_range fuel (included_chars s) min max with
    | Some inc => Some (mkCharacterSet (includes_all s) inc (excluded_chars s))
    | None => None
    end.

(** [include(c)] and [exclude(c)] *)
Definition include1 (fuel : nat) (c : Z) := include fuel c c.
Definition exclude1 (fuel : nat) (c : Z) := exclude fuel c c.

Definition is_empty (s : CharacterSet) : bool :=
  negb (includes_all s) && USet.is_nil (included_chars s).

(** [add_set]: the receiver after the call.  [other] is an object of its
    own (a copy, when it has the receiver's value). *)
Definition add_set (s other : CharacterSet) : CharacterSet :=
  if includes_all s then
    if includes_all other then
      mkCharacterSet true (included_chars s)
        (snd (remove_chars (excluded_chars s) (excluded_chars other)))
    else
      mkCharacterSet true (included_chars s)
        (fst (remove_chars (excluded_chars s) (included_chars other)))
  else
    if includes_all other then
      let ex :=
        fold_left
          (fun (ex : USet.t) (c : Z) =>
             if negb (USet.count c (included_chars s))
             then fst (USet.insert c ex) else ex)
          (excluded_chars other) (excluded_chars s) in
      mkCharacterSet true USet.empty ex
    else
      let inc :=
        fold_left (fun (inc : USet.t) (c : Z) => fst (USet.insert c inc))
          (included_chars other) (included_chars s) in
      mkCharacterSet false inc (excluded_chars s).

(** [remove_set]: the receiver after the call, and the returned set.
    [other] is an object of its own, as in [add_set]. *)
Definition remove_set (s other : CharacterSet) : CharacterSet * CharacterSet :=
  if includes_all s then
    if includes_all other then
      let (result_ex, added) := add_chars (excluded_chars s) (excluded_chars other) in
      (mkCharacterSet false added USet.empty,
       mkCharacterSet true USet.empty result_ex)
    else
      let (ex, added) := add_chars (excluded_chars s) (included_chars other) in
      (mkCharacterSet true (included_chars s) ex,
       mkCharacterSet false added USet.empty)
  else
    if includes_all other then
      let (result_inc, removed) :=
        remove_chars (included_chars s) (excluded_chars other) in
      (mkCharacterSet false removed (excluded_chars s),
       mkCharacterSet false result_inc USet.empty)
    else
      let (inc, removed) :=
        remove_chars (included_chars s) (included_chars other) in
      (mkCharacterSet false inc (excluded_chars s),
       mkCharacterSet false removed USet.empty).

(** [intersects] works on a copy of the receiver. *)
Definition intersects (s other : CharacterSet) : bool :=
  negb (is_empty (snd (remove_set s other))).

Definition included_ranges (s : CharacterSet) : Vec.t :=
  consolidate_ranges (included_chars s).

Definition excluded_ranges (s : CharacterSet) : Vec.t :=
  consolidate_ranges (excluded_chars s).

(** ** Representation semantics

    Direct form: the set is exactly [included_chars].  Complement form: the
    set is every code point but [excluded_chars]. *)

Definition member (p : Z) (s : CharacterSet) : bool :=
  if includes_all s
  then negb (USet.count p (excluded_chars s))
  else USet.count p (included_chars s).

(** A code point lies in one of the ranges of a vector. *)
Definition in_range (p : Z) (r : CharacterRange) : bool :=
  (rmin r <=? p) && (p <=? rmax r).

Definition in_ranges (p : Z) (v : Vec.t) : bool := existsb (in_range p) v.


(** ** The representation invariant

    Only the field selected by [includes_all] carries the set; the other one
    is empty. *)

Definition rep_ok (s : CharacterSet) : Prop :=
  if includes_all s then included_chars s = [] else excluded_chars s = [].

(** ** Sets that a program can build

    The default constructor, then any of the public operations; the argument
    of [add_set] and [remove_set] is such a set too, and so is the set that
    [remove_set] returns. *)

Inductive reachable : CharacterSet -> Prop :=
| reach_new : reachable CharacterSet_new
| reach_include_all s : reachable s -> reachable (include_all s)
| reach_include s fuel min max s' :
    reachable s -> include fuel min max s = Some s' -> reachable s'
| reach_exclude s fuel min max s' :
    reachable s -> exclude fuel min max s = Some s' -> reachable s'
| reach_add_set s other :
    reachable s -> reachable other -> reachable (add_set s other)
| reach_remove_set s other :
    reachable s -> reachable other -> reachable (fst (remove_set s other))
| reach_removed s other :
    reachable s -> reachable other -> reachable (snd (remove_set s other)).

(** ** Call sequences

    A set under construction by [include] and [exclude] calls, and the loop
    of a client that feeds ranges back into a set. *)

Inductive edit : Type :=
| Include (min max : Z)
| Exclude (min max : Z).

(** The arguments are [uint32_t] values. *)
Definition edit_typed (e : edit) : Prop :=
  match e with
  | Include min max | Exclude min max => is_uint32 min /\ is_uint32 max
  end.

Definition apply_edit (fuel : nat) (e : edit) (s : CharacterSet) : option CharacterSet :=
  match e with
  | Include min max => include fuel min max s
  | Exclude min max => exclude fuel min max s
  end.

(** A chain of [include] and [exclude] calls on one set. *)
Fixpoint build (fuel : nat) (ops : list edit) (s : CharacterSet) : option CharacterSet :=
  match ops with
  | [] => Some s
  | e :: rest =>
      match apply_edit fuel e s with
      | Some s' => build fuel rest s'
      | None => None
      end
  end.

(** [for (r : ranges) s.include(r.min, r.max);] *)
Fixpoint reinclude (fuel : nat) (ranges : Vec.t) (s : CharacterSet) : option CharacterSet :=
  match ranges with
  | [] => Some s
  | r :: rest =>
      match include fuel (rmin r) (rmax r) s with
      | Some s' => reinclude fuel rest s'
      | None => None
      end
  end.

(** ** Vocabulary of the ordering and of the range view *)

(** What [operator<] computes: [false] before [true] on [includes_all],
    then [included_chars], then [excluded_chars]. *)
Definition lex_lt (a b : CharacterSet) : Prop :=
  (includes_all a = false /\ includes_all b = true) \/
  (includes_all a = includes_all b /\
   (USet.lt (included_chars a) (included_chars b) = true \/
    (included_chars a = included_chars b /\
     USet.lt (excluded_chars a) (excluded_chars b) = true))).

(** Shape of the result.  A range is [single] when it holds one point; two
    ranges are [adjacent] when the second starts right after the first. *)
Definition single (r : CharacterRange) : Prop := rmin r = rmax r.
Definition adjacent (r r' : CharacterRange) : Prop := rmax r + 1 = rmin r'.

(** [r] and [r'] are neighbours in the vector, [r] first. *)
Definition consecutive (v : Vec.t) (r r' : CharacterRange) : Prop :=
  exists l1 l2, v = l1 ++ r :: r' :: l2.

(** ** Auxiliary definitions of the proofs *)

(** The loop bodies of [remove_chars] and [add_chars], named. *)
Definition remove_chars_body (acc : USet.t * USet.t) (c : Z) : USet.t * USet.t :=
  let (l, result) := acc in
  let (l', erased) := USet.erase c l in
  if erased =? 0 then (l', result) else (l', fst (USet.insert c result)).

Definition add_chars_body (acc : USet.t * USet.t) (c : Z) : USet.t * USet.t :=
  let (l, result) := acc in
  let (l', fresh) := USet.insert c l in
  if fresh then (l', fst (USet.insert c result)) else (l', result).

(** The vector seen from its back: the same loop body on the list of ranges
    in reverse order. *)
Definition step_from_back (st : list CharacterRange) (c : Z) : list CharacterRange :=
  match st with
  | [] => [CharacterRange_of c]
  | r1 :: rest =>
      let otherwise :=
        if (rmin r1 <? rmax r1) && (rmax r1 =? wrap32 (c - 1))
        then mkRange (rmin r1) c :: rest
        else CharacterRange_of c :: st in
      match rest with
      | [] => otherwise
      | r2 :: rest2 =>
          if rmax r2 =? wrap32 (c - 2) then mkRange (rmin r2) c :: rest2
          else otherwise
      end
  end.

(** The invariant of the loop, on the vector seen from its back. *)
Fixpoint back_ok (st : list CharacterRange) : Prop :=
  match st with
  | [] => True
  | r1 :: rest =>
      0 <= rmin r1 /\ (single r1 \/ rmin r1 + 2 <= rmax r1) /\
      match rest with
      | [] => True
      | r2 :: rest2 =>
          rmax r2 < rmin r1 /\
          (adjacent r2 r1 ->
           single r2 /\ single r1 /\
           match rest2 with [] => True | r3 :: _ => ~ adjacent r3 r2 end)
      end /\
      back_ok rest
  end.

Definition back_max (st : list CharacterRange) : Z :=
  match st with [] => -1 | r :: _ => rmax r end.

(** A container in order whose keys all lie below [UINT32_MAX]. *)
Definition below_max (s : USet.t) : Prop :=
  USet.ascending_from (-1) s /\ Forall (fun x => x < UINT32_MAX) s.

Definition direct_below_max (s : CharacterSet) : Prop :=
  includes_all s = false /\ below_max (included_chars s).

(** ** Rule-level equality *)

(** [a == b] on containers: same size and the same keys in order. *)
Fixpoint USet_eqb (a b : USet.t) : bool :=
  match a, b with
  | [], [] => true
  | x :: a', y :: b' => (x =? y) && USet_eqb a' b'
  | _, _ => false
  end.

(** Modelled from the spec: the rule hierarchy ([Rule] and its [as<T>()]
    downcast) is declared outside this file; a rule is a character set or a
    rule of one of the other kinds, and [as<CharacterSet>()] is null for the
    latter. *)
Inductive Rule : Type :=
| Rule_CharacterSet (s : CharacterSet)
| Rule_other.

Definition as_CharacterSet (rule : Rule) : option CharacterSet :=
  match rule with
  | Rule_CharacterSet s => Some s
  | Rule_other => None
  end.

(** [operator==] *)
Definition CharacterSet_eq (s : CharacterSet) (rule : Rule) : bool :=
  match as_CharacterSet rule with
  | Some other =>
      Bool.eqb (includes_all s) (includes_all other)
      && USet_eqb (included_chars s) (included_chars other)
      && USet_eqb (excluded_chars s) (excluded_chars other)
  | None => false
  end.

(** ** Canonical sets

    A container whose keys are in strictly ascending order, as every
    [std::set] is, and a character set made of two such containers of which
    only the selected one is populated. *)

Definition ordered (s : USet.t) : Prop := exists lo, USet.ascending_from lo s.

Definition canonical (s : CharacterSet) : Prop :=
  rep_ok s /\ ordered (included_chars s) /\ ordered (excluded_chars s).

(** * Properties *)

(** ** Membership in the container after each primitive *)

Section SetMembership.

Variables (x c : Z).

Lemma count_insert_key (s : USet.t) :
  USet.count x (USet.insert_key c s) = (x =? c) || USet.count x s.
Proof.
  induction s as [|y s IH]; simpl.
  - destruct (x =? c); reflexivity.
  - destruct (Z.ltb_spec c y); simpl; [reflexivity|].
    destruct (Z.eqb_spec c y); subst; simpl.
    + destruct (x =? y); reflexivity.
    + rewrite IH. destruct (x =? y), (x =? c); reflexivity.
Qed.

Lemma count_erase_key (s : USet.t) :
  USet.count x (USet.erase_key c s) = negb (x =? c) && USet.count x s.
Proof.
  induction s as [|y s IH]; simpl.
  - now rewrite andb_false_r.
  - destruct (Z.eqb_spec c y); subst; simpl; rewrite IH.
    + destruct (x =? y); reflexivity.
    + destruct (Z.eqb_spec x y); subst; [|reflexivity].
      destruct (Z.eqb_spec y c); [congruence | reflexivity].
Qed.

End SetMembership.

Lemma count_true_In (x : Z) (s : USet.t) : USet.count x s = true <-> In x s.
Proof.
  induction s as [|y s IH]; simpl.
  - split; [discriminate | tauto].
  - destruct (Z.eqb_spec x y); subst.
    + split; auto.
    + rewrite IH. split; [auto | intros [E | H]; [congruence | exact H]].
Qed.

Lemma count_none_nil (s : USet.t) :
  (forall x, USet.count x s = false) -> s = [].
Proof.
  destruct s as [|y s]; [reflexivity | intros H].
  specialize (H y). simpl in H. now rewrite Z.eqb_refl in H.
Qed.

(** [remove_chars] and [add_chars] from any accumulator. *)

Lemma remove_chars_fold (x : Z) (right l res : USet.t) :
  let out := fold_left remove_chars_body right (l, res) in
  USet.count x (fst out) = USet.count x l && negb (USet.count x right) /\
  USet.count x (snd out) = USet.count x res || (USet.count x l && USet.count x right).
Proof.
  revert l res. induction right as [|c right IH]; intros l res; simpl.
  - rewrite andb_true_r, andb_false_r, orb_false_r. auto.
  - destruct (USet.count c l) eqn:Hc; simpl.
    + destruct (IH (USet.erase_key c l) (USet.insert_key c res)) as [H1 H2].
      rewrite H1, H2, count_insert_key, count_erase_key.
      destruct (Z.eqb_spec x c); subst; simpl.
      * rewrite Hc. split; [reflexivity | now rewrite orb_true_r].
      * auto.
    + destruct (IH (USet.erase_key c l) res) as [H1 H2].
      rewrite H1, H2, count_erase_key.
      destruct (Z.eqb_spec x c); subst; simpl.
      * rewrite Hc. simpl. split; [reflexivity | now rewrite orb_false_r].
      * auto.
Qed.

Lemma add_chars_fold (x : Z) (right l res : USet.t) :
  let out := fold_left add_chars_body right (l, res) in
  USet.count x (fst out) = USet.count x l || USet.count x right /\
  USet.count x (snd out) = USet.count x res || (negb (USet.count x l) && USet.count x right).
Proof.
  revert l res. induction right as [|c right IH]; intros l res; simpl.
  - rewrite andb_false_r, !orb_false_r. auto.
  - destruct (USet.count c l) eqn:Hc; simpl.
    + destruct (IH (USet.insert_key c l) res) as [H1 H2].
      rewrite H1, H2, count_insert_key.
      destruct (Z.eqb_spec x c); subst; simpl.
      * rewrite Hc. simpl. split; [reflexivity | now rewrite orb_false_r].
      * auto.
    + destruct (IH (USet.insert_key c l) (USet.insert_key c res)) as [H1 H2].
      rewrite H1, H2, !count_insert_key.
      destruct (Z.eqb_spec x c); subst; simpl.
      * rewrite Hc. simpl. split; [reflexivity | now rewrite orb_true_r].
      * auto.
Qed.

Lemma count_remove_chars_left (x : Z) (l r : USet.t) :
  USet.count x (fst (remove_chars l r)) = USet.count x l && negb (USet.count x r).
Proof. exact (proj1 (remove_chars_fold x r l USet.empty)). Qed.

Lemma count_remove_chars_result (x : Z) (l r : USet.t) :
  USet.count x (snd (remove_chars l r)) = USet.count x l && USet.count x r.
Proof. exact (proj2 (remove_chars_fold x r l USet.empty)). Qed.

Lemma count_add_chars_left (x : Z) (l r : USet.t) :
  USet.count x (fst (add_chars l r)) = USet.count x l || USet.count x r.
Proof. exact (proj1 (add_chars_fold x r l USet.empty)). Qed.

Lemma count_add_chars_result (x : Z) (l r : USet.t) :
  USet.count x (snd (add_chars l r)) = negb (USet.count x l) && USet.count x r.
Proof. exact (proj2 (add_chars_fold x r l USet.empty)). Qed.

(** The two loops of [add_set] that are written in place. *)

Lemma count_fold_insert (x : Z) (r acc : USet.t) :
  USet.count x (fold_left (fun inc c => fst (USet.insert c inc)) r acc)
  = USet.count x acc || USet.count x r.
Proof.
  revert acc. induction r as [|c r IH]; intros acc; simpl.
  - now rewrite orb_false_r.
  - rewrite IH, count_insert_key.
    destruct (x =? c), (USet.count x acc); reflexivity.
Qed.

Lemma count_fold_insert_unless (x : Z) (inc r acc : USet.t) :
  USet.count x
    (fold_left (fun ex c => if negb (USet.count c inc)
                            then fst (USet.insert c ex) else ex) r acc)
  = USet.count x acc || (USet.count x r && negb (USet.count x inc)).
Proof.
  revert acc. induction r as [|c r IH]; intros acc; simpl.
  - now rewrite orb_false_r.
  - rewrite IH. destruct (USet.count c inc) eqn:Hc; simpl.
    + destruct (Z.eqb_spec x c); subst; [|reflexivity].
      rewrite Hc. simpl. now rewrite andb_false_r.
    + rewrite count_insert_key.
      destruct (Z.eqb_spec x c); subst; simpl.
      * rewrite Hc. simpl. now rewrite !orb_true_r.
      * reflexivity.
Qed.

(** ** Union *)

(** C1. After [A.add_set(B)] a code point is a member of [A] exactly when
    it was a member of [A] before or is a member of [B], in each of the four
    combinations of direct and complement form; [A] is a set in which only
    the field selected by [includes_all] is populated. *)
Theorem add_set_is_union (A B : CharacterSet) (HA : rep_ok A) (p : Z) :
  member p (add_set A B) = member p A || member p B.
Proof.
  unfold rep_ok in HA. unfold add_set, member.
  destruct (includes_all A) eqn:EA, (includes_all B) eqn:EB; simpl.
  - rewrite count_remove_chars_result. apply negb_andb.
  - rewrite count_remove_chars_left, negb_andb. now rewrite negb_involutive.
  - rewrite count_fold_insert_unless, HA. simpl.
    rewrite negb_andb, negb_involutive. apply orb_comm.
  - apply count_fold_insert.
Qed.

Lemma add_set_is_union_witness :
  rep_ok (mkCharacterSet false [3; 4] []) /\
  member 4 (add_set (mkCharacterSet false [3; 4] []) (mkCharacterSet true [] [0; 4]))
  = member 4 (mkCharacterSet false [3; 4] [])
    || member 4 (mkCharacterSet true [] [0; 4]).
Proof.
  split; [reflexivity|].
  apply (add_set_is_union (mkCharacterSet false [3; 4] [])
           (mkCharacterSet true [] [0; 4])).
  reflexivity.
Defined.

(** The hypothesis is used in the (direct, complement) case only: the loop
    there inserts into whatever [excluded_chars] the receiver holds.  On a
    field state that no sequence of operations produces (direct form with a
    populated [excluded_chars]) those stale points stay excluded. *)
Remark add_set_keeps_stale_exclusions :
  ~ rep_ok (mkCharacterSet false [] [5]) /\
  member 5 (add_set (mkCharacterSet false [] [5]) (mkCharacterSet true [] [0])) = false /\
  member 5 (mkCharacterSet true [] [0]) = true.
Proof. repeat split. discriminate. Qed.

(** ** Difference *)

(** C2, as the code has it. When both operands are in complement form,
    [remove_set] returns a set in complement form whose exclusion set is the
    union of the two exclusion sets, so its members are the points outside
    that union (the points of both operands); the receiver becomes a direct
    set holding the points of the receiver that the argument lacks. *)
Theorem remove_set_complements (A B : CharacterSet)
    (HA : includes_all A = true) (HB : includes_all B = true) :
  let A' := fst (remove_set A B) in
  let R := snd (remove_set A B) in
  (includes_all R = true /\ included_chars R = [] /\
   forall p, USet.count p (excluded_chars R)
             = USet.count p (excluded_chars A) || USet.count p (excluded_chars B)) /\
  (forall p, member p R = member p A && member p B) /\
  (includes_all A' = false /\ excluded_chars A' = []) /\
  (forall p, member p A' = member p A && negb (member p B)).
Proof.
  unfold remove_set, member. rewrite HA, HB.
  pose proof (count_add_chars_left) as HL.
  pose proof (count_add_chars_result) as HR.
  specialize (fun p => HL p (excluded_chars A) (excluded_chars B)).
  specialize (fun p => HR p (excluded_chars A) (excluded_chars B)).
  destruct (add_chars (excluded_chars A) (excluded_chars B)) as [result_ex added].
  simpl in *. repeat split; auto.
  - intros p. rewrite HL. apply negb_orb.
  - intros p. rewrite HR, negb_involutive. reflexivity.
Qed.

Lemma remove_set_complements_witness :
  member 10 (fst (remove_set (mkCharacterSet true [] [0]) (mkCharacterSet true [] [0; 10])))
  = true.
Proof.
  pose proof (remove_set_complements (mkCharacterSet true [] [0])
                (mkCharacterSet true [] [0; 10]) eq_refl eq_refl) as H.
  simpl in H. destruct H as (_ & _ & _ & H). rewrite H. reflexivity.
Defined.

(** The returned set of that case has nothing in its inclusion set, and its
    members are the points outside the union of the exclusion sets, not the
    points of the union. *)
Lemma remove_set_complements_not_inclusion :
  included_chars
    (snd (remove_set (mkCharacterSet true [] [0]) (mkCharacterSet true [] [0; 10]))) = []
  /\ ~ (forall p,
          member p (snd (remove_set (mkCharacterSet true [] [0])
                           (mkCharacterSet true [] [0; 10]))) = true
          <-> In p [0] \/ In p [0; 10]).
Proof.
  split; [reflexivity|].
  intros H.
  assert (E := proj2 (H 10) (or_intror (or_intror (or_introl eq_refl)))).
  discriminate E.
Qed.

(** C5. [A.remove_set(A')] for [A'] equal to [A] leaves the receiver empty
    and returns a set with the members of [A], in either form. *)
Theorem remove_set_self (A : CharacterSet) :
  is_empty (fst (remove_set A A)) = true /\
  forall p, member p (snd (remove_set A A)) = member p A.
Proof.
  unfold remove_set, member, is_empty.
  destruct (includes_all A) eqn:EA.
  - pose proof (fun p => count_add_chars_left p (excluded_chars A) (excluded_chars A)) as HL.
    pose proof (fun p => count_add_chars_result p (excluded_chars A) (excluded_chars A)) as HR.
    destruct (add_chars (excluded_chars A) (excluded_chars A)) as [result_ex added].
    simpl in *. split.
    + rewrite (count_none_nil added); [reflexivity|].
      intros x. rewrite HR. apply andb_negb_l.
    + intros p. rewrite HL. now rewrite orb_diag.
  - pose proof (fun p => count_remove_chars_left p (included_chars A) (included_chars A)) as HL.
    pose proof (fun p => count_remove_chars_result p (included_chars A) (included_chars A)) as HR.
    destruct (remove_chars (included_chars A) (included_chars A)) as [inc removed].
    simpl in *. split.
    + rewrite (count_none_nil inc); [reflexivity|].
      intros x. rewrite HL. apply andb_negb_r.
    + intros p. rewrite HR. now rewrite andb_diag.
Qed.

(** C8. After [include_all()] the set is in complement form, with nothing
    in [included_chars] and exactly code point 0 in [excluded_chars]: every
    code point but 0 is a member. *)
Theorem include_all_excludes_zero (s : CharacterSet) :
  includes_all (include_all s) = true /\
  included_chars (include_all s) = [] /\
  excluded_chars (include_all s) = [0] /\
  forall p, member p (include_all s) = true <-> p <> 0.
Proof.
  repeat split; try reflexivity; unfold member; simpl.
  - intros H. destruct (Z.eqb_spec p 0); [discriminate H | assumption].
  - intros H. destruct (Z.eqb_spec p 0); [contradiction | reflexivity].
Qed.

(** ** The ordering *)

Module LtFacts.

Lemma irrefl (a : USet.t) : USet.lt a a = false.
Proof.
  induction a as [|x a IH]; simpl; [reflexivity|].
  now rewrite Z.ltb_irrefl.
Qed.

Lemma tricho (a b : USet.t) :
  USet.lt a b = false -> USet.lt b a = false -> a = b.
Proof.
  revert b. induction a as [|x a IH]; intros [|y b]; simpl; try discriminate; auto.
  destruct (Z.ltb_spec x y); [discriminate|].
  destruct (Z.ltb_spec y x); [discriminate|].
  intros H1 H2. f_equal; [lia | now apply IH].
Qed.

Lemma asym (a b : USet.t) : USet.lt a b = true -> USet.lt b a = false.
Proof.
  revert b. induction a as [|x a IH]; intros [|y b]; simpl; try discriminate; auto.
  destruct (Z.ltb_spec x y), (Z.ltb_spec y x); try discriminate; try lia; auto.
Qed.

Lemma trans (a b c : USet.t) :
  USet.lt a b = true -> USet.lt b c = true -> USet.lt a c = true.
Proof.
  revert b c. induction a as [|x a IH]; intros [|y b] [|z c]; simpl;
    try discriminate; auto.
  destruct (Z.ltb_spec x y), (Z.ltb_spec y x), (Z.ltb_spec y z), (Z.ltb_spec z y),
    (Z.ltb_spec x z), (Z.ltb_spec z x);
    try discriminate; try lia; auto.
  apply IH.
Qed.

End LtFacts.

Lemma CharacterSet_lt_lex (a b : CharacterSet) :
  CharacterSet_lt a b = true <-> lex_lt a b.
Proof.
  unfold CharacterSet_lt, lex_lt.
  destruct (includes_all a), (includes_all b); simpl;
    try (split; [auto | reflexivity]);
    try (split; [discriminate | intros [[? ?] | [? _]]; discriminate]).
  all: destruct (USet.lt (included_chars a) (included_chars b)) eqn:E1;
    [ split; auto |].
  all: destruct (USet.lt (included_chars b) (included_chars a)) eqn:E2.
  all: split.
  all: try discriminate.
  all: try (intros [[? ?] | [_ [? | [E ?]]]]; try discriminate;
            rewrite E, LtFacts.irrefl in E2; discriminate).
  all: try (intros H; right; split; [reflexivity|]; right; split;
            [now apply LtFacts.tricho | exact H]).
  all: intros [[? ?] | [_ [? | [_ ?]]]]; try discriminate; assumption.
Qed.

(** C10. [operator<] is a strict total order on the three fields: no value is
    below itself, the relation is transitive, of two different values
    exactly one is below the other, and it compares [includes_all] first,
    then [included_chars], then [excluded_chars]. *)
Theorem CharacterSet_lt_strict_total_order :
  (forall a, CharacterSet_lt a a = false) /\
  (forall a b c, CharacterSet_lt a b = true -> CharacterSet_lt b c = true ->
                 CharacterSet_lt a c = true) /\
  (forall a b, a <> b -> xorb (CharacterSet_lt a b) (CharacterSet_lt b a) = true) /\
  (forall a b, CharacterSet_lt a b = true <-> lex_lt a b).
Proof.
  split; [|split; [|split]].
  - intros a. unfold CharacterSet_lt.
    rewrite !LtFacts.irrefl. now destruct (includes_all a).
  - intros a b c Hab Hbc.
    apply CharacterSet_lt_lex in Hab, Hbc. apply CharacterSet_lt_lex.
    unfold lex_lt in *.
    destruct Hab as [[Ha Hb] | [Eab Hab]], Hbc as [[Hb' Hc] | [Ebc Hbc]];
      try congruence.
    + left. split; congruence.
    + left. split; congruence.
    + right. split; [congruence|].
      destruct Hab as [Hab | [Eia Hab]], Hbc as [Hbc | [Eib Hbc]].
      * left. eapply LtFacts.trans; eauto.
      * left. now rewrite <- Eib.
      * left. now rewrite Eia.
      * right. split; [congruence|]. eapply LtFacts.trans; eauto.
  - intros [ia inca exa] [ib incb exb] Hne. unfold CharacterSet_lt. simpl.
    destruct ia, ib; simpl; try reflexivity.
    all: destruct (USet.lt inca incb) eqn:E1;
      [ now rewrite (LtFacts.asym _ _ E1) |].
    all: destruct (USet.lt incb inca) eqn:E2; [reflexivity|].
    all: pose proof (LtFacts.tricho _ _ E1 E2); subst incb.
    all: destruct (USet.lt exa exb) eqn:E3;
      [ now rewrite (LtFacts.asym _ _ E3) |].
    all: destruct (USet.lt exb exa) eqn:E4; [reflexivity|].
    all: pose proof (LtFacts.tricho _ _ E3 E4); subst exb.
    all: now elim Hne.
  - apply CharacterSet_lt_lex.
Qed.

(** ** The invariant on every set a program can build *)

Lemma include_rep_ok fuel min max s s' :
  rep_ok s -> include fuel min max s = Some s' -> rep_ok s'.
Proof.
  unfold rep_ok, include. intros H.
  destruct (includes_all s) eqn:E.
  - destruct (remove_range _ _ _ _); intros [=]; subst s'; simpl; exact H.
  - destruct (add_range _ _ _ _); intros [=]; subst s'; simpl; exact H.
Qed.

Lemma exclude_rep_ok fuel min max s s' :
  rep_ok s -> exclude fuel min max s = Some s' -> rep_ok s'.
Proof.
  unfold rep_ok, exclude. intros H.
  destruct (includes_all s) eqn:E.
  - destruct (add_range _ _ _ _); intros [=]; subst s'; simpl; exact H.
  - destruct (remove_range _ _ _ _); intros [=]; subst s'; simpl; exact H.
Qed.

Lemma add_set_rep_ok s other : rep_ok s -> rep_ok (add_set s other).
Proof.
  unfold rep_ok, add_set.
  destruct (includes_all s), (includes_all other); simpl; auto.
Qed.

Lemma remove_set_rep_ok s other :
  rep_ok s -> rep_ok (fst (remove_set s other)) /\ rep_ok (snd (remove_set s other)).
Proof.
  unfold rep_ok, remove_set.
  destruct (includes_all s), (includes_all other);
    try destruct (add_chars _ _); try destruct (remove_chars _ _); simpl; auto.
Qed.

(** C7. In every set built from the default constructor by [include_all],
    [include], [exclude], [add_set] and [remove_set], and in every set that
    [remove_set] returns, the field that [includes_all] does not select is
    empty. *)
Theorem reachable_fields_disjoint (s : CharacterSet) (H : reachable s) :
  (includes_all s = false -> excluded_chars s = []) /\
  (includes_all s = true -> included_chars s = []).
Proof.
  assert (R : rep_ok s).
  { induction H.
    - reflexivity.
    - reflexivity.
    - eapply include_rep_ok; eauto.
    - eapply exclude_rep_ok; eauto.
    - now apply add_set_rep_ok.
    - now apply remove_set_rep_ok.
    - now apply remove_set_rep_ok. }
  unfold rep_ok in R. destruct (includes_all s); split; intros; congruence.
Qed.

Lemma reachable_fields_disjoint_witness :
  reachable (snd (remove_set (include_all CharacterSet_new)
                    (add_set CharacterSet_new (include_all CharacterSet_new)))) /\
  included_chars (snd (remove_set (include_all CharacterSet_new)
                    (add_set CharacterSet_new (include_all CharacterSet_new)))) = [].
Proof.
  assert (R : reachable (snd (remove_set (include_all CharacterSet_new)
                    (add_set CharacterSet_new (include_all CharacterSet_new))))).
  { apply reach_removed.
    - apply reach_include_all, reach_new.
    - apply reach_add_set; [apply reach_new | apply reach_include_all, reach_new]. }
  split; [exact R|].
  apply (reachable_fields_disjoint _ R). reflexivity.
Defined.

(** ** The range loops *)

Lemma wrap32_succ (c : Z) : 0 <= c < UINT32_MAX -> wrap32 (c + 1) = c + 1.
Proof. intros H. unfold wrap32. apply Z.mod_small. unfold UINT32_MAX, UINT32_MOD in *. lia. Qed.

Lemma wrap32_is_uint32 (z : Z) : is_uint32 (wrap32 z).
Proof. unfold is_uint32, wrap32. apply Z.mod_pos_bound. reflexivity. Qed.

(** With [max = UINT32_MAX] the test [c <= max] holds for every [c]. *)
Lemma add_range_spins (fuel : nat) (chars : USet.t) (c : Z) :
  is_uint32 c -> add_range fuel chars c UINT32_MAX = None.
Proof.
  revert chars c. induction fuel as [|fuel IH]; intros chars c Hc; simpl.
  - reflexivity.
  - destruct (Z.leb_spec c UINT32_MAX) as [_|Hgt].
    + apply IH, wrap32_is_uint32.
    + unfold is_uint32, UINT32_MAX, UINT32_MOD in *. lia.
Qed.

Lemma remove_range_spins (fuel : nat) (chars : USet.t) (c : Z) :
  is_uint32 c -> remove_range fuel chars c UINT32_MAX = None.
Proof.
  revert chars c. induction fuel as [|fuel IH]; intros chars c Hc; simpl.
  - reflexivity.
  - destruct (Z.leb_spec c UINT32_MAX) as [_|Hgt].
    + apply IH, wrap32_is_uint32.
    + unfold is_uint32, UINT32_MAX, UINT32_MOD in *. lia.
Qed.

(** Below [UINT32_MAX] the loop leaves after [max - c + 1] rounds, whatever
    the container holds. *)
Lemma add_range_returns (n fuel : nat) (chars : USet.t) (c max : Z) :
  0 <= c -> max < UINT32_MAX -> max + 1 - c = Z.of_nat n -> (n < fuel)%nat ->
  exists r, add_range fuel chars c max = Some r /\
            forall x, USet.count x r = USet.count x chars || ((c <=? x) && (x <=? max)).
Proof.
  revert fuel chars c.
  induction n as [|n IH]; intros [|fuel] chars c Hc Hmax Hn Hf; try lia; simpl.
  - destruct (Z.leb_spec c max); [lia|].
    exists chars. split; [reflexivity|]. intros x.
    destruct (Z.leb_spec c x), (Z.leb_spec x max); simpl; try lia;
      now rewrite orb_false_r.
  - destruct (Z.leb_spec c max); [|lia].
    rewrite wrap32_succ by lia.
    destruct (IH fuel (USet.insert_key c chars) (c + 1)) as (r & Hr & Hx); try lia.
    exists r. split; [exact Hr|]. intros x. rewrite Hx, count_insert_key.
    destruct (Z.eqb_spec x c), (Z.leb_spec (c + 1) x), (Z.leb_spec c x),
      (Z.leb_spec x max); simpl; try lia;
      destruct (USet.count x chars); reflexivity.
Qed.

Lemma remove_range_returns (n fuel : nat) (chars : USet.t) (c max : Z) :
  0 <= c -> max < UINT32_MAX -> max + 1 - c = Z.of_nat n -> (n < fuel)%nat ->
  exists r, remove_range fuel chars c max = Some r /\
            forall x, USet.count x r = USet.count x chars && negb ((c <=? x) && (x <=? max)).
Proof.
  revert fuel chars c.
  induction n as [|n IH]; intros [|fuel] chars c Hc Hmax Hn Hf; try lia; simpl.
  - destruct (Z.leb_spec c max); [lia|].
    exists chars. split; [reflexivity|]. intros x.
    destruct (Z.leb_spec c x), (Z.leb_spec x max); simpl; try lia;
      now rewrite andb_true_r.
  - destruct (Z.leb_spec c max); [|lia].
    rewrite wrap32_succ by lia.
    destruct (IH fuel (USet.erase_key c chars) (c + 1)) as (r & Hr & Hx); try lia.
    exists r. split; [exact Hr|]. intros x. rewrite Hx, count_erase_key.
    destruct (Z.eqb_spec x c), (Z.leb_spec (c + 1) x), (Z.leb_spec c x),
      (Z.leb_spec x max); simpl; try lia;
      destruct (USet.count x chars); reflexivity.
Qed.

(** The loop needs every one of those rounds. *)
Lemma add_range_short_of_fuel (n fuel : nat) (chars : USet.t) (c max : Z) :
  0 <= c -> max < UINT32_MAX -> max + 1 - c = Z.of_nat n -> (fuel <= n)%nat ->
  add_range fuel chars c max = None.
Proof.
  revert n chars c.
  induction fuel as [|fuel IH]; intros n chars c Hc Hmax Hn Hf; simpl; [reflexivity|].
  destruct (Z.leb_spec c max); [|lia].
  rewrite wrap32_succ by lia.
  apply (IH (pred n)); lia.
Qed.

Lemma remove_range_short_of_fuel (n fuel : nat) (chars : USet.t) (c max : Z) :
  0 <= c -> max < UINT32_MAX -> max + 1 - c = Z.of_nat n -> (fuel <= n)%nat ->
  remove_range fuel chars c max = None.
Proof.
  revert n chars c.
  induction fuel as [|fuel IH]; intros n chars c Hc Hmax Hn Hf; simpl; [reflexivity|].
  destruct (Z.leb_spec c max); [|lia].
  rewrite wrap32_succ by lia.
  apply (IH (pred n)); lia.
Qed.

(** More fuel never changes what a loop that has left returns. *)
Lemma add_range_fuel_mono (fuel fuel' : nat) (chars r : USet.t) (c max : Z) :
  (fuel <= fuel')%nat -> add_range fuel chars c max = Some r ->
  add_range fuel' chars c max = Some r.
Proof.
  revert fuel' chars c. induction fuel as [|fuel IH]; intros [|fuel'] chars c Hle;
    simpl; try discriminate; try lia.
  destruct (c <=? max); [apply IH; lia | auto].
Qed.

Lemma remove_range_fuel_mono (fuel fuel' : nat) (chars r : USet.t) (c max : Z) :
  (fuel <= fuel')%nat -> remove_range fuel chars c max = Some r ->
  remove_range fuel' chars c max = Some r.
Proof.
  revert fuel' chars c. induction fuel as [|fuel IH]; intros [|fuel'] chars c Hle;
    simpl; try discriminate; try lia.
  destruct (c <=? max); [apply IH; lia | auto].
Qed.

(** Whatever the set and the lower bound, a call with [max = UINT32_MAX]
    does not return. *)
Lemma include_spins (fuel : nat) (s : CharacterSet) (min : Z) :
  is_uint32 min ->
  include fuel min UINT32_MAX s = None /\ exclude fuel min UINT32_MAX s = None.
Proof.
  intros Hmin. unfold include, exclude.
  rewrite !add_range_spins, !remove_range_spins by exact Hmin.
  now destruct (includes_all s).
Qed.

(** C6, at the bound where the code departs from it. [include(0, 4294967295)]
    and [exclude(0, 4294967295)] on a fresh set never return: however many
    rounds the loop is given, it has not left. *)
Theorem include_exclude_spin_at_uint32_max (fuel : nat) :
  include fuel 0 4294967295 CharacterSet_new = None /\
  exclude fuel 0 4294967295 CharacterSet_new = None /\
  include fuel 4294967295 4294967295 CharacterSet_new = None.
Proof.
  unfold include, exclude. simpl includes_all. cbv iota.
  change 4294967295 with UINT32_MAX.
  rewrite !add_range_spins, remove_range_spins; auto;
    unfold is_uint32, UINT32_MAX, UINT32_MOD; lia.
Qed.

(** Below that bound both operations return, after exactly [max - min + 1]
    rounds of the loop, with the range added to or taken from the field
    that [includes_all] selects. *)
Theorem include_exclude_return_below_max (s : CharacterSet) (min max : Z) (fuel : nat)
    (Hmin : 0 <= min) (Hle : min <= max) (Hmax : max < UINT32_MAX) :
  (Z.of_nat fuel <= max - min + 1 ->
     include fuel min max s = None /\ exclude fuel min max s = None) /\
  (max - min + 1 < Z.of_nat fuel ->
     exists s1 s2,
       include fuel min max s = Some s1 /\ exclude fuel min max s = Some s2 /\
       forall p, member p s1 = member p s || ((min <=? p) && (p <=? max)) /\
                 member p s2 = member p s && negb ((min <=? p) && (p <=? max))).
Proof.
  split; intros Hf.
  - unfold include, exclude.
    rewrite !(add_range_short_of_fuel (Z.to_nat (max + 1 - min))) by lia.
    rewrite !(remove_range_short_of_fuel (Z.to_nat (max + 1 - min))) by lia.
    now destruct (includes_all s).
  - unfold include, exclude, member.
    destruct (includes_all s) eqn:E.
    + destruct (remove_range_returns (Z.to_nat (max + 1 - min)) fuel
                  (excluded_chars s) min max) as (r1 & -> & H1); try lia.
      destruct (add_range_returns (Z.to_nat (max + 1 - min)) fuel
                  (excluded_chars s) min max) as (r2 & -> & H2); try lia.
      eexists _, _. repeat split; simpl.
      * rewrite H1, negb_andb. now rewrite negb_involutive.
      * rewrite H2. apply negb_orb.
    + destruct (add_range_returns (Z.to_nat (max + 1 - min)) fuel
                  (included_chars s) min max) as (r1 & -> & H1); try lia.
      destruct (remove_range_returns (Z.to_nat (max + 1 - min)) fuel
                  (included_chars s) min max) as (r2 & -> & H2); try lia.
      eexists _, _. repeat split; simpl; auto.
Qed.

(** ** The range view *)

(** C3, as the code has it. On the point set {1,2,3,7,8,10} the ranges are
    [1,3], [7,7], [8,8], [10,10]: the two neighbours 7 and 8 stay two
    single-point ranges. *)
Theorem included_ranges_example :
  included_ranges (mkCharacterSet false [1; 2; 3; 7; 8; 10] [])
  = [mkRange 1 3; mkRange 7 7; mkRange 8 8; mkRange 10 10].
Proof. reflexivity. Qed.

Lemma included_ranges_example_not_merged :
  included_ranges (mkCharacterSet false [1; 2; 3; 7; 8; 10] [])
  <> [mkRange 1 3; mkRange 7 8; mkRange 10 10].
Proof. discriminate. Qed.

(** Three single-point [include] calls in a row give one range. *)
Example include_5_6_7_ranges :
  option_map included_ranges
    (match include1 2 5 CharacterSet_new with
     | Some s1 =>
         match include1 2 6 s1 with
         | Some s2 => include1 2 7 s2
         | None => None
         end
     | None => None
     end)
  = Some [mkRange 5 7].
Proof. reflexivity. Qed.

(** [include_all().exclude(10)] holds every point but 0 and 10, and shares a
    point with a direct set exactly when that set has one of them. *)
Example include_all_exclude_10 :
  option_map (fun s => (excluded_ranges s, member 0 s, member 10 s, member 11 s,
                        intersects s (mkCharacterSet false [0; 10] []),
                        intersects s (mkCharacterSet false [10; 11] [])))
    (exclude1 2 10 (include_all CharacterSet_new))
  = Some ([mkRange 0 0; mkRange 10 10], false, false, true, false, true).
Proof. reflexivity. Qed.

Lemma consolidate_step_two (l : Vec.t) (r2 r1 : CharacterRange) (c : Z) :
  consolidate_step (l ++ [r2; r1]) c =
  if rmax r2 =? wrap32 (c - 2) then l ++ [mkRange (rmin r2) c]
  else if (rmin r1 <? rmax r1) && (rmax r1 =? wrap32 (c - 1))
       then l ++ [r2; mkRange (rmin r1) c]
       else l ++ [r2; r1; CharacterRange_of c].
Proof.
  assert (Hsize : Vec.size (l ++ [r2; r1]) = Z.of_nat (length l) + 2).
  { unfold Vec.size. rewrite length_app. simpl. lia. }
  assert (Hsplit : l ++ [r2; r1] = (l ++ [r2]) ++ [r1]).
  { now rewrite <- app_assoc. }
  unfold consolidate_step. rewrite Hsize.
  replace (2 <=? Z.of_nat (length l) + 2) with true by (symmetry; apply Z.leb_le; lia).
  replace (1 <=? Z.of_nat (length l) + 2) with true by (symmetry; apply Z.leb_le; lia).
  replace (Z.of_nat (length l) + 2 - 2) with (Z.of_nat (length l)) by lia.
  unfold Vec.at_. rewrite Nat2Z.id, nth_middle. simpl andb.
  unfold Vec.set_back_max, Vec.pop_back, Vec.back, Vec.push_back.
  rewrite Hsplit, !removelast_last, !last_last, <- !app_assoc.
  reflexivity.
Qed.

Lemma consolidate_step_rev (st : list CharacterRange) (c : Z) :
  consolidate_step (rev st) c = rev (step_from_back st c).
Proof.
  destruct st as [|r1 [|r2 rest]].
  - reflexivity.
  - unfold consolidate_step, step_from_back, Vec.back, Vec.set_back_max,
      Vec.push_back. simpl.
    destruct ((rmin r1 <? rmax r1) && (rmax r1 =? wrap32 (c - 1))); reflexivity.
  - cbn [rev step_from_back]. rewrite <- app_assoc. simpl app.
    rewrite consolidate_step_two.
    destruct (rmax r2 =? wrap32 (c - 2)); [reflexivity|].
    destruct ((rmin r1 <? rmax r1) && (rmax r1 =? wrap32 (c - 1)));
      simpl; rewrite <- !app_assoc; reflexivity.
Qed.

Lemma consolidate_fold_rev (chars : USet.t) (st : list CharacterRange) :
  fold_left consolidate_step chars (rev st) = rev (fold_left step_from_back chars st).
Proof.
  revert st. induction chars as [|c chars IH]; intros st; simpl; [reflexivity|].
  now rewrite consolidate_step_rev, IH.
Qed.

Lemma wrap32_small (z : Z) : 0 <= z < UINT32_MOD -> wrap32 z = z.
Proof. apply Z.mod_small. Qed.

Lemma step_from_back_ok (st : list CharacterRange) (c : Z) :
  back_ok st -> back_max st < c < UINT32_MOD ->
  back_ok (step_from_back st c) /\
  back_max (step_from_back st c) = c /\
  forall p, in_ranges p (step_from_back st c) = (p =? c) || in_ranges p st.
Proof.
  unfold in_ranges, in_range, single, adjacent.
  destruct st as [|[a1 b1] [|[a2 b2] rest2]]; cbn [step_from_back back_max rmin rmax].
  - intros _ Hc. simpl. unfold single. simpl. repeat split; lia.
  - simpl. unfold single. simpl. intros (H0 & Hw & _) Hc.
    rewrite (wrap32_small (c - 1)) by lia.
    destruct (Z.ltb_spec a1 b1), (Z.eqb_spec b1 (c - 1)); simpl; unfold single; simpl;
      repeat split; try lia.
    all: unfold adjacent, CharacterRange_of in *; cbn [rmin rmax] in *; lia.
  - cbn [back_ok rmin rmax]. unfold single, adjacent. cbn [rmin rmax].
    intros (H0 & Hw & (Hlt & Hadj) & H0' & Hw' & Hrest & Hok) Hc.
    rewrite (wrap32_small (c - 2)), (wrap32_small (c - 1)) by lia.
    destruct (Z.eqb_spec b2 (c - 2)) as [E2|N2].
    + assert (Ha : b2 + 1 = a1) by lia.
      destruct (Hadj Ha) as (S2 & S1 & Hthird).
      cbn [back_ok back_max rmin rmax existsb]. unfold single, adjacent. cbn [rmin rmax].
      repeat split; try lia; auto.
      * destruct rest2 as [|[a3 b3] rest3]; [exact I|].
        cbn [rmin rmax] in *. destruct Hrest as (Hlt3 & _).
        split; [lia|]. intros. exfalso. apply Hthird. lia.
      * intros p. destruct (existsb _ rest2); lia.
    + destruct (Z.ltb_spec a1 b1), (Z.eqb_spec b1 (c - 1));
        cbn [andb back_ok back_max rmin rmax existsb CharacterRange_of];
        unfold single, adjacent; cbn [rmin rmax];
        repeat split; try lia; auto;
        try (intros p; destruct (existsb _ rest2); lia).
      all: intros; unfold CharacterRange_of in *; cbn [rmin rmax] in *; try lia.
      all: apply Hadj; lia.
Qed.

Lemma fold_from_back_ok (chars : USet.t) (st : list CharacterRange) :
  back_ok st -> USet.ascending_from (back_max st) chars -> Forall is_uint32 chars ->
  back_ok (fold_left step_from_back chars st) /\
  forall p, in_ranges p (fold_left step_from_back chars st)
            = in_ranges p st || USet.count p chars.
Proof.
  revert st. induction chars as [|c chars IH]; intros st Hok Hasc Hu; simpl.
  - split; [exact Hok | intros p; now rewrite orb_false_r].
  - destruct Hasc as [Hlt Hasc]. inversion Hu as [|? ? Hc Hu']; subst.
    destruct (step_from_back_ok st c Hok) as (Hok' & Hmax & Hcov).
    { unfold is_uint32 in Hc. lia. }
    destruct (IH (step_from_back st c) Hok') as (Hok'' & Hcov'); auto.
    { now rewrite Hmax. }
    split; [exact Hok''|]. intros p. rewrite Hcov', Hcov.
    destruct (p =? c), (in_ranges p st); reflexivity.
Qed.

Lemma back_ok_suffix (l st : list CharacterRange) : back_ok (l ++ st) -> back_ok st.
Proof.
  induction l as [|r l IH]; [auto|]. simpl app. cbn [back_ok].
  intros (_ & _ & _ & H). auto.
Qed.

Lemma back_ok_each (st : list CharacterRange) (r : CharacterRange) :
  back_ok st -> In r st -> 0 <= rmin r /\ (single r \/ rmin r + 2 <= rmax r).
Proof.
  induction st as [|r1 st IH]; [contradiction|]. cbn [back_ok].
  intros (H0 & Hw & _ & Hok) [-> | Hin]; auto.
Qed.

Lemma in_ranges_rev (p : Z) (st : list CharacterRange) :
  in_ranges p (rev st) = in_ranges p st.
Proof.
  unfold in_ranges. induction st as [|r st IH]; [reflexivity|]. simpl.
  rewrite existsb_app, IH. simpl. rewrite orb_false_r. apply orb_comm.
Qed.

Lemma rev_eq_app (st l1 l2 : list CharacterRange) :
  rev st = l1 ++ l2 -> st = rev l2 ++ rev l1.
Proof.
  intros H. rewrite <- (rev_involutive st), H. apply rev_app_distr.
Qed.

(** C4, as the code has it. On a stored point set, [consolidate_ranges]
    (behind both [included_ranges] and [excluded_ranges]) yields closed
    ranges in ascending order that do not overlap and whose union is the
    point set. Neighbouring ranges may touch, but only as two single-point
    ranges: a run of exactly two points comes out as two ranges, a wider
    range spans three points or more, and three ranges in a row never
    touch pairwise. *)
Theorem consolidate_ranges_shape (chars : USet.t) (Hwf : USet.wf chars) :
  let v := consolidate_ranges chars in
  (forall r, In r v -> rmin r <= rmax r /\ (single r \/ rmin r + 2 <= rmax r)) /\
  (forall r r', consecutive v r r' -> rmax r < rmin r') /\
  (forall p, in_ranges p v = USet.count p chars) /\
  (forall r r', consecutive v r r' -> adjacent r r' -> single r /\ single r') /\
  (forall l1 l2 r r' r'', v = l1 ++ r :: r' :: r'' :: l2 ->
                          ~ (adjacent r r' /\ adjacent r' r'')).
Proof.
  destruct Hwf as [Hasc Hu]. unfold consolidate_ranges.
  change (@nil CharacterRange) with (rev (@nil CharacterRange)).
  rewrite consolidate_fold_rev.
  destruct (fold_from_back_ok chars [] I Hasc Hu) as [Hok Hcov].
  set (st := fold_left step_from_back chars []) in *. cbn zeta.
  repeat split.
  - apply in_rev in H. destruct (back_ok_each st r Hok H) as [_ [Hs | Hw]];
      unfold single in *; lia.
  - apply in_rev in H. now destruct (back_ok_each st r Hok H).
  - intros r r' (l1 & l2 & E). apply rev_eq_app in E. simpl in E.
    rewrite <- !app_assoc in E. simpl in E. rewrite E in Hok.
    apply back_ok_suffix in Hok. cbn [back_ok] in Hok. tauto.
  - intros p. rewrite in_ranges_rev, Hcov. reflexivity.
  - destruct H as (l1 & l2 & E). apply rev_eq_app in E. simpl in E.
    rewrite <- !app_assoc in E. simpl in E. rewrite E in Hok.
    apply back_ok_suffix in Hok. cbn [back_ok] in Hok. tauto.
  - destruct H as (l1 & l2 & E). apply rev_eq_app in E. simpl in E.
    rewrite <- !app_assoc in E. simpl in E. rewrite E in Hok.
    apply back_ok_suffix in Hok. cbn [back_ok] in Hok. tauto.
  - intros l1 l2 r r' r'' E [A1 A2]. apply rev_eq_app in E. simpl in E.
    rewrite <- !app_assoc in E. simpl in E. rewrite E in Hok.
    apply back_ok_suffix in Hok. cbn [back_ok] in Hok.
    destruct Hok as (_ & _ & (_ & Hadj) & _).
    destruct (Hadj A2) as (_ & _ & Hthird). exact (Hthird A1).
Qed.

Lemma consolidate_ranges_shape_witness :
  USet.wf [1; 2; 3; 7; 8; 10] /\
  forall p, in_ranges p (consolidate_ranges [1; 2; 3; 7; 8; 10])
            = USet.count p [1; 2; 3; 7; 8; 10].
Proof.
  assert (W : USet.wf [1; 2; 3; 7; 8; 10]).
  { split; [simpl; lia|]. repeat constructor; unfold UINT32_MOD; lia. }
  split; [exact W|].
  apply (consolidate_ranges_shape [1; 2; 3; 7; 8; 10] W).
Defined.

(** Two neighbouring points are returned as two touching ranges, not as the
    one range [7,8]: the result is neither free of adjacent ranges nor the
    shortest sequence with that union. *)
Lemma consolidate_ranges_adjacent_pair :
  USet.wf [7; 8] /\
  consolidate_ranges [7; 8] = [mkRange 7 7; mkRange 8 8] /\
  consolidate_ranges [7; 8] <> [mkRange 7 8] /\
  consecutive (consolidate_ranges [7; 8]) (mkRange 7 7) (mkRange 8 8) /\
  adjacent (mkRange 7 7) (mkRange 8 8).
Proof.
  split; [|split; [|split; [|split]]].
  - split; [simpl; lia|]. repeat constructor; unfold UINT32_MOD; lia.
  - reflexivity.
  - discriminate.
  - exists [], []. reflexivity.
  - reflexivity.
Qed.

(** ** Building a set and reading it back *)

Section ContainerInvariant.

Variable P : Z -> Prop.

Lemma ascending_weaken (lo lo' : Z) (s : USet.t) :
  lo' <= lo -> USet.ascending_from lo s -> USet.ascending_from lo' s.
Proof. destruct s; simpl; [auto | intros ? [? ?]; split; [lia | assumption]]. Qed.

Lemma ascending_insert (c : Z) (s : USet.t) :
  forall lo, lo < c -> USet.ascending_from lo s ->
             USet.ascending_from lo (USet.insert_key c s).
Proof.
  induction s as [|x s IH]; intros lo Hlo; simpl.
  - auto.
  - intros [Hx Hs]. destruct (Z.ltb_spec c x); simpl; [auto|].
    destruct (Z.eqb_spec c x); simpl; [auto|].
    split; [assumption | apply IH; [lia | assumption]].
Qed.

Lemma ascending_erase (c : Z) (s : USet.t) :
  forall lo, USet.ascending_from lo s -> USet.ascending_from lo (USet.erase_key c s).
Proof.
  induction s as [|x s IH]; intros lo; simpl; [auto|].
  intros [Hx Hs]. destruct (c =? x); simpl.
  - apply IH. apply (ascending_weaken x); [lia | assumption].
  - split; [assumption | now apply IH].
Qed.

Lemma Forall_insert (c : Z) (s : USet.t) :
  P c -> Forall P s -> Forall P (USet.insert_key c s).
Proof.
  intros Hc. induction 1 as [|x s Hx Hs IH]; simpl; [auto|].
  destruct (c <? x); [auto|]. destruct (c =? x); auto.
Qed.

Lemma Forall_erase (c : Z) (s : USet.t) :
  Forall P s -> Forall P (USet.erase_key c s).
Proof.
  induction 1 as [|x s Hx Hs IH]; simpl; [auto|]. destruct (c =? x); auto.
Qed.

End ContainerInvariant.

Lemma ascending_is_uint32 (s : USet.t) :
  forall lo, -1 <= lo -> USet.ascending_from lo s ->
             Forall (fun x => x < UINT32_MAX) s -> Forall is_uint32 s.
Proof.
  induction s as [|x s IH]; intros lo Hlo Ha Hb; [constructor|].
  destruct Ha as [H1 H2]. inversion Hb as [|? ? Hx Hs]; subst. constructor.
  - unfold is_uint32, UINT32_MAX, UINT32_MOD in *. lia.
  - apply (IH x); [lia | exact H2 | exact Hs].
Qed.

Lemma below_max_wf (s : USet.t) : below_max s -> USet.wf s.
Proof.
  intros [Ha Hb]. split; [exact Ha|].
  apply (ascending_is_uint32 s (-1)); [lia | exact Ha | exact Hb].
Qed.

Lemma add_range_below_max (fuel : nat) (chars r : USet.t) (c max : Z) :
  is_uint32 c -> is_uint32 max -> below_max chars ->
  add_range fuel chars c max = Some r -> below_max r.
Proof.
  revert chars c. induction fuel as [|fuel IH]; intros chars c Hc Hm Hb; simpl;
    [discriminate|].
  destruct (Z.leb_spec c max); [|intros [=]; now subst].
  intros Hr. destruct (Z.eq_dec c UINT32_MAX) as [->|Hne].
  - assert (max = UINT32_MAX) by (unfold is_uint32, UINT32_MAX, UINT32_MOD in *; lia).
    subst max. rewrite add_range_spins in Hr by apply wrap32_is_uint32. discriminate.
  - apply IH in Hr; auto using wrap32_is_uint32.
    destruct Hb as [Ha Hb]. unfold is_uint32, UINT32_MAX, UINT32_MOD in *. simpl fst.
    split; [apply ascending_insert | apply Forall_insert]; auto;
      unfold UINT32_MAX; lia.
Qed.

Lemma remove_range_below_max (fuel : nat) (chars r : USet.t) (c max : Z) :
  below_max chars -> remove_range fuel chars c max = Some r -> below_max r.
Proof.
  revert chars c. induction fuel as [|fuel IH]; intros chars c Hb; simpl;
    [discriminate|].
  destruct (c <=? max); [|intros [=]; now subst].
  apply IH. destruct Hb. split; [now apply ascending_erase | now apply Forall_erase].
Qed.

Lemma build_direct_below_max (fuel : nat) (ops : list edit) :
  forall s A, Forall edit_typed ops -> direct_below_max s ->
              build fuel ops s = Some A -> direct_below_max A.
Proof.
  induction ops as [|e ops IH]; intros s A Ht [Hd Hb]; simpl.
  - intros [=]. now subst.
  - inversion Ht as [|? ? Hty Ht']; subst.
    destruct (apply_edit fuel e s) as [s'|] eqn:E; [|discriminate].
    apply IH; [exact Ht'|].
    destruct e as [min max | min max]; destruct Hty as [Hmin Hmax]; simpl in E;
      unfold include, exclude in E; rewrite Hd in E.
    + destruct (add_range fuel _ min max) as [inc|] eqn:Er; [|discriminate].
      injection E as <-. split; [reflexivity|]. simpl.
      exact (add_range_below_max fuel _ _ min max Hmin Hmax Hb Er).
    + destruct (remove_range fuel _ min max) as [inc|] eqn:Er; [|discriminate].
      injection E as <-. split; [reflexivity|]. simpl.
      exact (remove_range_below_max fuel _ _ min max Hb Er).
Qed.

(** What both later results need of [consolidate_ranges]. *)
Lemma consolidate_ranges_cover (chars : USet.t) :
  USet.wf chars ->
  (forall p, in_ranges p (consolidate_ranges chars) = USet.count p chars) /\
  (forall r, In r (consolidate_ranges chars) -> 0 <= rmin r <= rmax r).
Proof.
  intros [Hasc Hu]. unfold consolidate_ranges.
  change (@nil CharacterRange) with (rev (@nil CharacterRange)).
  rewrite consolidate_fold_rev.
  destruct (fold_from_back_ok chars [] I Hasc Hu) as [Hok Hcov]. split.
  - intros p. now rewrite in_ranges_rev, Hcov.
  - intros r Hin. apply in_rev in Hin.
    destruct (back_ok_each _ r Hok Hin) as [H0 [Hs | Hw]]; unfold single in *; lia.
Qed.

Lemma reinclude_returns (fuel : nat) (v : Vec.t) :
  (Z.to_nat UINT32_MAX < fuel)%nat ->
  forall s, includes_all s = false ->
            (forall r, In r v -> 0 <= rmin r <= rmax r /\ rmax r < UINT32_MAX) ->
  exists s', reinclude fuel v s = Some s' /\
             forall p, member p s' = member p s || in_ranges p v.
Proof.
  intros Hfuel. induction v as [|r v IH]; intros s Hd Hv; simpl.
  - exists s. split; [reflexivity | intros p; now rewrite orb_false_r].
  - destruct (Hv r (or_introl eq_refl)) as [Hr Hr'].
    unfold include at 1. rewrite Hd.
    destruct (add_range_returns (Z.to_nat (rmax r + 1 - rmin r)) fuel
                (included_chars s) (rmin r) (rmax r)) as (inc & -> & Hinc); try lia.
    destruct (IH (mkCharacterSet false inc (excluded_chars s)) eq_refl) as (s' & -> & Hs').
    { intros r0 H0. apply Hv. now right. }
    exists s'. split; [reflexivity|]. intros p. rewrite Hs'.
    unfold member at 1 2. rewrite Hd. simpl. rewrite Hinc.
    unfold in_ranges, in_range. now rewrite orb_assoc.
Qed.

(** C9. For a set [A] built from a fresh set by [include] and [exclude]
    calls, re-including into a fresh set every range that [included_ranges]
    returns gives a set with the members of [A]. *)
Theorem included_ranges_round_trip (fuel : nat) (ops : list edit) (A : CharacterSet)
    (Htyped : Forall edit_typed ops)
    (Hbuilt : build fuel ops CharacterSet_new = Some A) :
  exists fuel' A',
    reinclude fuel' (included_ranges A) CharacterSet_new = Some A' /\
    forall p, member p A' = member p A.
Proof.
  assert (Hnew : direct_below_max CharacterSet_new).
  { split; [reflexivity|]. split; [exact I | constructor]. }
  destruct (build_direct_below_max fuel ops _ A Htyped Hnew Hbuilt) as [Hd Hb].
  destruct (consolidate_ranges_cover _ (below_max_wf _ Hb)) as [Hcov Hrng].
  destruct (reinclude_returns (S (Z.to_nat UINT32_MAX)) (included_ranges A)
              (Nat.lt_succ_diag_r _) CharacterSet_new eq_refl) as (A' & HA' & Hmem).
  - intros r Hin. split; [now apply Hrng|].
    assert (Hc : USet.count (rmax r) (included_chars A) = true).
    { rewrite <- Hcov. apply existsb_exists. exists r. split; [exact Hin|].
      unfold in_range. specialize (Hrng r Hin). apply andb_true_intro.
      split; apply Z.leb_le; lia. }
    apply count_true_In in Hc. destruct Hb as [_ Hb].
    rewrite Forall_forall in Hb. now apply Hb.
  - exists (S (Z.to_nat UINT32_MAX)), A'. split; [exact HA'|].
    intros p. rewrite Hmem. unfold included_ranges. rewrite Hcov.
    unfold member. rewrite Hd. reflexivity.
Qed.

Lemma included_ranges_round_trip_witness :
  exists fuel' A',
    reinclude fuel'
      (included_ranges (mkCharacterSet false [1; 3; 7; 8] [])) CharacterSet_new = Some A' /\
    forall p, member p A' = member p (mkCharacterSet false [1; 3; 7; 8] []).
Proof.
  apply (included_ranges_round_trip 10 [Include 1 3; Include 7 8; Exclude 2 2]).
  - repeat constructor; unfold UINT32_MOD; lia.
  - reflexivity.
Defined.

(** * Further properties of the set algebra *)

(** ** Difference and intersection in all four cases *)

Lemma member_remove_set (A B : CharacterSet) (p : Z) :
  member p (fst (remove_set A B)) = member p A && negb (member p B) /\
  member p (snd (remove_set A B)) = member p A && member p B.
Proof.
  unfold remove_set, member.
  destruct (includes_all A) eqn:EA, (includes_all B) eqn:EB.
  - pose proof (count_add_chars_left p (excluded_chars A) (excluded_chars B)) as HL.
    pose proof (count_add_chars_result p (excluded_chars A) (excluded_chars B)) as HR.
    destruct (add_chars _ _) as [l r]. simpl in *. rewrite HL, HR.
    now rewrite negb_involutive, negb_orb.
  - pose proof (count_add_chars_left p (excluded_chars A) (included_chars B)) as HL.
    pose proof (count_add_chars_result p (excluded_chars A) (included_chars B)) as HR.
    destruct (add_chars _ _) as [l r]. simpl in *. rewrite HL, HR.
    now rewrite negb_orb.
  - pose proof (count_remove_chars_left p (included_chars A) (excluded_chars B)) as HL.
    pose proof (count_remove_chars_result p (included_chars A) (excluded_chars B)) as HR.
    destruct (remove_chars _ _) as [l r]. simpl in *. rewrite HL, HR.
    now rewrite negb_involutive.
  - pose proof (count_remove_chars_left p (included_chars A) (included_chars B)) as HL.
    pose proof (count_remove_chars_result p (included_chars A) (included_chars B)) as HR.
    destruct (remove_chars _ _) as [l r]. simpl in *. rewrite HL, HR.
    auto.
Qed.

(** [remove_set] splits the receiver: what stays in the receiver are its
    points outside [other], what is returned are its points inside [other],
    whatever the forms of the two operands. *)
Theorem remove_set_splits (A B : CharacterSet) (p : Z) :
  member p (fst (remove_set A B)) = member p A && negb (member p B) /\
  member p (snd (remove_set A B)) = member p A && member p B.
Proof. exact (member_remove_set A B p). Qed.

(** The form of what [remove_set] returns: complement only when both
    operands are. *)
Lemma remove_set_result_form (A B : CharacterSet) :
  includes_all (snd (remove_set A B)) = includes_all A && includes_all B.
Proof.
  unfold remove_set.
  destruct (includes_all A), (includes_all B);
    try destruct (add_chars _ _); try destruct (remove_chars _ _); reflexivity.
Qed.

(** Union, with the one assumption its (direct, complement) case uses. *)
Lemma add_set_member (A B : CharacterSet) (p : Z) :
  (includes_all A = false -> includes_all B = true -> excluded_chars A = []) ->
  member p (add_set A B) = member p A || member p B.
Proof.
  unfold add_set, member.
  destruct (includes_all A) eqn:EA, (includes_all B) eqn:EB; simpl; intros HA.
  - rewrite count_remove_chars_result. apply negb_andb.
  - rewrite count_remove_chars_left, negb_andb. now rewrite negb_involutive.
  - rewrite count_fold_insert_unless, HA by reflexivity. simpl.
    rewrite negb_andb, negb_involutive. apply orb_comm.
  - apply count_fold_insert.
Qed.

(** Adding back what [remove_set] returned restores the members of the
    receiver, in every combination of forms. *)
Theorem remove_set_then_add_set (A B : CharacterSet) (p : Z) :
  member p (add_set (fst (remove_set A B)) (snd (remove_set A B))) = member p A.
Proof.
  rewrite add_set_member.
  - destruct (member_remove_set A B p) as [-> ->].
    destruct (member p A), (member p B); reflexivity.
  - rewrite remove_set_result_form. unfold remove_set.
    destruct (includes_all A), (includes_all B); try discriminate.
    destruct (add_chars _ _). reflexivity.
Qed.

(** ** [is_empty] and [intersects] *)

Lemma is_empty_iff (s : CharacterSet) :
  is_empty s = true <-> includes_all s = false /\ forall p, member p s = false.
Proof.
  unfold is_empty, member. destruct (includes_all s); simpl.
  - split; [discriminate | intros [? _]; discriminate].
  - split.
    + destruct (included_chars s); [auto | discriminate].
    + intros [_ H]. now rewrite (count_none_nil _ H).
Qed.

(** [is_empty] answers true exactly for a direct set without members; a set
    in complement form is never reported empty. *)
Theorem is_empty_spec (s : CharacterSet) :
  is_empty s = true <-> includes_all s = false /\ forall p, member p s = false.
Proof. exact (is_empty_iff s). Qed.

Lemma intersects_iff (s other : CharacterSet) :
  intersects s other = true <->
  (includes_all s = true /\ includes_all other = true) \/
  exists p, member p s = true /\ member p other = true.
Proof.
  unfold intersects. rewrite negb_true_iff.
  pose proof (remove_set_result_form s other) as Hform.
  pose proof (fun p => proj2 (member_remove_set s other p)) as Hmem.
  set (R := snd (remove_set s other)) in *.
  destruct (is_empty R) eqn:E.
  - apply is_empty_iff in E. destruct E as [Hd Hnone]. split; [discriminate|].
    intros [[Hs Ho] | (p & Hs & Ho)].
    + rewrite Hd, Hs, Ho in Hform. discriminate.
    + specialize (Hmem p). rewrite Hnone, Hs, Ho in Hmem. discriminate.
  - split; [intros _ | reflexivity].
    unfold is_empty in E. rewrite Hform in E.
    destruct (includes_all s) eqn:Hs, (includes_all other) eqn:Ho; simpl in E; auto;
      right.
    all: destruct (included_chars R) as [|x l] eqn:El; [discriminate|].
    all: exists x; apply andb_true_iff; rewrite <- Hmem; unfold member;
      rewrite Hform, El; simpl; now rewrite Z.eqb_refl.
Qed.

(** [intersects] is true when both sets are in complement form, and
    otherwise exactly when the two sets share a member. *)
Theorem intersects_spec (s other : CharacterSet) :
  intersects s other = true <->
  (includes_all s = true /\ includes_all other = true) \/
  exists p, member p s = true /\ member p other = true.
Proof. exact (intersects_iff s other). Qed.

(** The answer of [intersects] does not depend on which set is the receiver. *)
Theorem intersects_symmetric (s other : CharacterSet) :
  intersects s other = intersects other s.
Proof.
  apply eq_true_iff_eq. rewrite !intersects_iff.
  split; (intros [[? ?] | (p & ? & ?)]; [left; auto | right; exists p; auto]).
Qed.

(** ** [operator==] *)

Lemma USet_eqb_eq (a b : USet.t) : USet_eqb a b = true <-> a = b.
Proof.
  revert b. induction a as [|x a IH]; intros [|y b]; simpl;
    try (split; [reflexivity || discriminate | reflexivity || discriminate]).
  rewrite andb_true_iff, Z.eqb_eq, IH.
  split; [intros [-> ->]; reflexivity | intros [= -> ->]; auto].
Qed.

Lemma CharacterSet_eq_iff (s other : CharacterSet) :
  CharacterSet_eq s (Rule_CharacterSet other) = true <-> s = other.
Proof.
  unfold CharacterSet_eq. simpl.
  rewrite !andb_true_iff, !USet_eqb_eq, eqb_true_iff.
  destruct s, other; simpl. split; [intros [[-> ->] ->]; reflexivity|].
  intros [= -> -> ->]. auto.
Qed.

(** [operator==] holds exactly between a character set and a rule that is a
    character set with the same three fields, and that is exactly when
    neither of the two is below the other under [operator<]; against a rule
    of another kind it is false. *)
Theorem CharacterSet_eq_spec (s : CharacterSet) :
  CharacterSet_eq s Rule_other = false /\
  forall other,
    (CharacterSet_eq s (Rule_CharacterSet other) = true <-> s = other) /\
    (CharacterSet_eq s (Rule_CharacterSet other) = true <->
     CharacterSet_lt s other = false /\ CharacterSet_lt other s = false).
Proof.
  split; [reflexivity|]. intros other.
  pose proof (CharacterSet_eq_iff s other) as Heq.
  split; [exact Heq|]. rewrite Heq. split.
  - intros <-. unfold CharacterSet_lt. rewrite !LtFacts.irrefl.
    now destruct (includes_all s).
  - intros [H1 H2]. destruct s as [ia inca exa], other as [ib incb exb].
    unfold CharacterSet_lt in *. simpl in *.
    destruct ia, ib; simpl in *; try discriminate.
    all: destruct (USet.lt inca incb) eqn:E1; [discriminate|].
    all: destruct (USet.lt incb inca) eqn:E2; [discriminate|].
    all: rewrite (LtFacts.tricho _ _ E1 E2), (LtFacts.tricho _ _ H1 H2); reflexivity.
Qed.

(** ** Canonical sets are determined by their members *)

Lemma count_below (x : Z) (s : USet.t) :
  forall lo, USet.ascending_from lo s -> x <= lo -> USet.count x s = false.
Proof.
  induction s as [|y s IH]; intros lo; simpl; [reflexivity|].
  intros [Hy Hs] Hx. destruct (Z.eqb_spec x y); [lia|].
  apply (IH y); [exact Hs | lia].
Qed.

Lemma ascending_ext (a : USet.t) :
  forall b lo lo', USet.ascending_from lo a -> USet.ascending_from lo' b ->
                   (forall x, USet.count x a = USet.count x b) -> a = b.
Proof.
  induction a as [|x a IH]; intros b lo lo' Ha Hb Hext.
  - symmetry. apply count_none_nil. intros y. now rewrite <- Hext.
  - destruct b as [|y b].
    + specialize (Hext x). simpl in Hext. rewrite Z.eqb_refl in Hext. discriminate.
    + destruct Ha as [_ Ha], Hb as [_ Hb].
      assert (x = y).
      { pose proof (Hext x) as Hx. pose proof (Hext y) as Hy. simpl in Hx, Hy.
        rewrite Z.eqb_refl in Hx, Hy.
        destruct (Z.eqb_spec x y) as [|Hne]; [assumption|].
        destruct (Z.eqb_spec y x) as [|_]; [congruence|].
        destruct (Z.lt_total x y) as [Hlt | [? | Hlt]]; [|assumption|].
        - rewrite (count_below x b y Hb) in Hx by lia. discriminate.
        - rewrite (count_below y a x Ha) in Hy by lia. discriminate. }
      subst y. f_equal. apply (IH b x x Ha Hb). intros z.
      destruct (Z.eq_dec z x) as [E|Hne].
      * rewrite E.
        now rewrite (count_below x a x Ha), (count_below x b x Hb) by lia.
      * specialize (Hext z). simpl in Hext.
        destruct (Z.eqb_spec z x); [contradiction | exact Hext].
Qed.

Lemma ordered_ext (a b : USet.t) :
  ordered a -> ordered b -> (forall x, USet.count x a = USet.count x b) -> a = b.
Proof. intros [lo Ha] [lo' Hb]. now apply (ascending_ext a b lo lo'). Qed.

Lemma canonical_ext (A B : CharacterSet) :
  canonical A -> canonical B -> includes_all A = includes_all B ->
  (forall p, member p A = member p B) -> A = B.
Proof.
  intros HA HB Hform Hmem.
  destruct A as [ia inca exa], B as [ib incb exb].
  destruct HA as (RA & OA1 & OA2), HB as (RB & OB1 & OB2).
  unfold rep_ok, member in *. simpl in *. subst ib.
  destruct ia; subst.
  - f_equal. apply ordered_ext; auto.
    intros x. specialize (Hmem x).
    destruct (USet.count x exa), (USet.count x exb); simpl in Hmem; congruence.
  - f_equal. apply ordered_ext; auto.
Qed.

(** Two canonical sets in the same form that have the same members are
    equal under [operator==]: within one form, the history of calls that
    built a set does not show. *)
Theorem same_members_equal (A B : CharacterSet)
    (HA : canonical A) (HB : canonical B)
    (Hform : includes_all A = includes_all B)
    (Hmem : forall p, member p A = member p B) :
  CharacterSet_eq A (Rule_CharacterSet B) = true.
Proof. apply CharacterSet_eq_iff. now apply canonical_ext. Qed.

Lemma same_members_equal_witness :
  CharacterSet_eq (add_set (mkCharacterSet false [3] []) (mkCharacterSet false [1] []))
    (Rule_CharacterSet (mkCharacterSet false [1; 3] [])) = true.
Proof.
  apply same_members_equal.
  - split; [reflexivity|]. split; exists 0; simpl; auto; lia.
  - split; [reflexivity|]. split; exists 0; simpl; auto; lia.
  - reflexivity.
  - intros p. unfold member. simpl. destruct (p =? 1), (p =? 3); reflexivity.
Defined.

(** ** The operations keep sets canonical *)

Lemma ordered_nil : ordered [].
Proof. exists 0. exact I. Qed.

Lemma ordered_insert (c : Z) (s : USet.t) : ordered s -> ordered (USet.insert_key c s).
Proof.
  intros [lo H]. exists (Z.min lo (c - 1)).
  apply ascending_insert; [lia|]. apply (ascending_weaken lo); [lia | exact H].
Qed.

Lemma ordered_erase (c : Z) (s : USet.t) : ordered s -> ordered (USet.erase_key c s).
Proof. intros [lo H]. exists lo. now apply ascending_erase. Qed.

Create HintDb ordered.
#[local] Hint Resolve ordered_nil ordered_insert ordered_erase : ordered.

Lemma remove_chars_fold_ordered (right : USet.t) :
  forall l res, ordered l -> ordered res ->
    ordered (fst (fold_left remove_chars_body right (l, res))) /\
    ordered (snd (fold_left remove_chars_body right (l, res))).
Proof.
  induction right as [|c right IH]; intros l res Hl Hres; simpl; [auto|].
  destruct (USet.count c l); simpl; apply IH; auto with ordered.
Qed.

Lemma add_chars_fold_ordered (right : USet.t) :
  forall l res, ordered l -> ordered res ->
    ordered (fst (fold_left add_chars_body right (l, res))) /\
    ordered (snd (fold_left add_chars_body right (l, res))).
Proof.
  induction right as [|c right IH]; intros l res Hl Hres; simpl; [auto|].
  destruct (USet.count c l); simpl; apply IH; auto with ordered.
Qed.

Lemma remove_chars_ordered (l r : USet.t) :
  ordered l -> ordered (fst (remove_chars l r)) /\ ordered (snd (remove_chars l r)).
Proof. intros H. apply (remove_chars_fold_ordered r l USet.empty H ordered_nil). Qed.

Lemma add_chars_ordered (l r : USet.t) :
  ordered l -> ordered (fst (add_chars l r)) /\ ordered (snd (add_chars l r)).
Proof. intros H. apply (add_chars_fold_ordered r l USet.empty H ordered_nil). Qed.

Lemma fold_insert_ordered (r acc : USet.t) :
  ordered acc -> ordered (fold_left (fun inc c => fst (USet.insert c inc)) r acc).
Proof.
  revert acc. induction r as [|c r IH]; intros acc H; simpl; auto with ordered.
Qed.

Lemma fold_insert_unless_ordered (inc r acc : USet.t) :
  ordered acc ->
  ordered (fold_left (fun ex c => if negb (USet.count c inc)
                                  then fst (USet.insert c ex) else ex) r acc).
Proof.
  revert acc. induction r as [|c r IH]; intros acc H; simpl; [auto|].
  apply IH. destruct (USet.count c inc); simpl; auto with ordered.
Qed.

Lemma add_range_ordered (fuel : nat) (chars r : USet.t) (c max : Z) :
  ordered chars -> add_range fuel chars c max = Some r -> ordered r.
Proof.
  revert chars c. induction fuel as [|fuel IH]; intros chars c H; simpl; [discriminate|].
  destruct (c <=? max); [|intros [=]; now subst].
  apply IH. simpl. auto with ordered.
Qed.

Lemma remove_range_ordered (fuel : nat) (chars r : USet.t) (c max : Z) :
  ordered chars -> remove_range fuel chars c max = Some r -> ordered r.
Proof.
  revert chars c. induction fuel as [|fuel IH]; intros chars c H; simpl; [discriminate|].
  destruct (c <=? max); [|intros [=]; now subst].
  apply IH. simpl. auto with ordered.
Qed.

Lemma include_canonical fuel min max s s' :
  canonical s -> include fuel min max s = Some s' ->
  canonical s' /\ includes_all s' = includes_all s.
Proof.
  intros (R & O1 & O2) H. pose proof (include_rep_ok _ _ _ _ _ R H) as R'.
  unfold include in H. destruct (includes_all s).
  - destruct (remove_range _ _ _ _) eqn:E; [|discriminate]. injection H as <-.
    repeat split; simpl; auto. exact (remove_range_ordered _ _ _ _ _ O2 E).
  - destruct (add_range _ _ _ _) eqn:E; [|discriminate]. injection H as <-.
    repeat split; simpl; auto. exact (add_range_ordered _ _ _ _ _ O1 E).
Qed.

Lemma exclude_canonical fuel min max s s' :
  canonical s -> exclude fuel min max s = Some s' ->
  canonical s' /\ includes_all s' = includes_all s.
Proof.
  intros (R & O1 & O2) H. pose proof (exclude_rep_ok _ _ _ _ _ R H) as R'.
  unfold exclude in H. destruct (includes_all s).
  - destruct (add_range _ _ _ _) eqn:E; [|discriminate]. injection H as <-.
    repeat split; simpl; auto. exact (add_range_ordered _ _ _ _ _ O2 E).
  - destruct (remove_range _ _ _ _) eqn:E; [|discriminate]. injection H as <-.
    repeat split; simpl; auto. exact (remove_range_ordered _ _ _ _ _ O1 E).
Qed.

Lemma add_set_canonical (A B : CharacterSet) : canonical A -> canonical (add_set A B).
Proof.
  intros (R & O1 & O2). split; [now apply add_set_rep_ok|].
  unfold add_set. destruct (includes_all A), (includes_all B); simpl; split; auto.
  - apply remove_chars_ordered, O2.
  - apply remove_chars_ordered, O2.
  - apply ordered_nil.
  - now apply fold_insert_unless_ordered.
  - now apply fold_insert_ordered.
Qed.

Lemma remove_set_canonical (A B : CharacterSet) :
  canonical A -> canonical (fst (remove_set A B)) /\ canonical (snd (remove_set A B)).
Proof.
  intros (R & O1 & O2).
  destruct (remove_set_rep_ok A B R) as [R1 R2].
  enough (H : (ordered (included_chars (fst (remove_set A B))) /\
               ordered (excluded_chars (fst (remove_set A B)))) /\
              (ordered (included_chars (snd (remove_set A B))) /\
               ordered (excluded_chars (snd (remove_set A B))))).
  { destruct H. split; split; assumption. }
  clear R1 R2. unfold remove_set.
  destruct (includes_all A), (includes_all B).
  - destruct (add_chars_ordered (excluded_chars A) (excluded_chars B) O2).
    destruct (add_chars _ _); simpl in *; auto using ordered_nil.
  - destruct (add_chars_ordered (excluded_chars A) (included_chars B) O2).
    destruct (add_chars _ _); simpl in *; auto using ordered_nil.
  - destruct (remove_chars_ordered (included_chars A) (excluded_chars B) O1).
    destruct (remove_chars _ _); simpl in *; auto using ordered_nil.
  - destruct (remove_chars_ordered (included_chars A) (included_chars B) O1).
    destruct (remove_chars _ _); simpl in *; auto using ordered_nil.
Qed.

(** Every set a program can build is canonical. *)
Lemma reachable_canonical (s : CharacterSet) : reachable s -> canonical s.
Proof.
  induction 1.
  - repeat split; apply ordered_nil.
  - split; [reflexivity|]. split; [apply ordered_nil | exists (-1); simpl; auto; lia].
  - eapply include_canonical; eauto.
  - eapply exclude_canonical; eauto.
  - now apply add_set_canonical.
  - now apply remove_set_canonical.
  - now apply remove_set_canonical.
Qed.

(** ** Union as an algebra on canonical sets *)


Lemma add_set_member_rep (A B : CharacterSet) (p : Z) :
  rep_ok A -> member p (add_set A B) = member p A || member p B.
Proof.
  intros R. apply add_set_member. intros E _. unfold rep_ok in R. now rewrite E in R.
Qed.



(** ** Composition of union and difference *)

(** Removing [B] right after adding it leaves the points of the receiver
    that are outside [B]. *)
Theorem add_set_then_remove_set (A B : CharacterSet) (HA : rep_ok A) (p : Z) :
  member p (fst (remove_set (add_set A B) B)) = member p A && negb (member p B).
Proof.
  rewrite (proj1 (member_remove_set _ _ _)), add_set_member_rep by assumption.
  destruct (member p A), (member p B); reflexivity.
Qed.

Lemma add_set_then_remove_set_witness :
  member 3 (fst (remove_set (add_set (mkCharacterSet false [3; 4] [])
                               (mkCharacterSet true [] [0; 3]))
                   (mkCharacterSet true [] [0; 3])))
  = member 3 (mkCharacterSet false [3; 4] [])
    && negb (member 3 (mkCharacterSet true [] [0; 3])).
Proof.
  apply (add_set_then_remove_set (mkCharacterSet false [3; 4] [])
           (mkCharacterSet true [] [0; 3])).
  reflexivity.
Defined.

Lemma remove_set_receiver_form (A B : CharacterSet) :
  includes_all (fst (remove_set A B)) = includes_all A && negb (includes_all B).
Proof.
  unfold remove_set.
  destruct (includes_all A), (includes_all B);
    try destruct (add_chars _ _); try destruct (remove_chars _ _); reflexivity.
Qed.

(** [remove_set] as a subset test: the receiver is empty afterwards exactly
    when every member of the receiver was a member of [other], unless the
    receiver was in complement form and [other] in direct form, where the
    receiver stays in complement form and is never reported empty. *)
Theorem remove_set_empties_subsets (A B : CharacterSet) :
  is_empty (fst (remove_set A B)) = true <->
  (includes_all A = false \/ includes_all B = true) /\
  forall p, member p A = true -> member p B = true.
Proof.
  rewrite is_empty_iff, remove_set_receiver_form. split.
  - intros [Hf Hm]. split.
    + destruct (includes_all A), (includes_all B); auto; discriminate.
    + intros p Hp. specialize (Hm p).
      rewrite (proj1 (member_remove_set A B p)), Hp in Hm.
      now destruct (member p B).
  - intros [Hf Hm]. split.
    + destruct Hf as [-> | ->]; [reflexivity | apply andb_false_r].
    + intros p. rewrite (proj1 (member_remove_set A B p)).
      destruct (member p A) eqn:Hp; [|reflexivity]. now rewrite (Hm p Hp).
Qed.

(** ** [include] and [exclude] at the edges of their ranges *)

(** With [max < min] the loop body never runs: [include] and [exclude]
    return at the first test and leave the set as it was. *)
Theorem include_exclude_empty_range (fuel : nat) (min max : Z) (s : CharacterSet)
    (Hgt : max < min) :
  include (S fuel) min max s = Some s /\ exclude (S fuel) min max s = Some s.
Proof.
  unfold include, exclude. simpl.
  destruct (Z.leb_spec min max); [lia|].
  destruct s as [[|] inc ex]; split; reflexivity.
Qed.

Lemma include_exclude_empty_range_witness :
  include 1 9 2 (mkCharacterSet false [5] []) = Some (mkCharacterSet false [5] []).
Proof.
  apply (include_exclude_empty_range 0 9 2 (mkCharacterSet false [5] [])). lia.
Defined.

Lemma include_exclude_return_below_max_witness :
  exists s1 s2,
    include 4 3 5 CharacterSet_new = Some s1 /\
    exclude 4 3 5 CharacterSet_new = Some s2 /\
    forall p, member p s1 = member p CharacterSet_new || ((3 <=? p) && (p <=? 5)) /\
              member p s2 = member p CharacterSet_new && negb ((3 <=? p) && (p <=? 5)).
Proof.
  apply (include_exclude_return_below_max CharacterSet_new 3 5 4).
  - lia.
  - lia.
  - unfold UINT32_MAX. lia.
  - simpl. lia.
Defined.

(** ** The helpers behind the set algebra *)

(** [remove_chars] leaves in [left] its keys that [right] lacks and returns
    the keys the two had in common; [add_chars] leaves in [left] the keys of
    both and returns the keys of [right] that [left] lacked.  Ordered
    containers stay ordered and the returned container is ordered. *)
Theorem remove_chars_add_chars_spec (left right : USet.t) (Hl : ordered left) :
  (forall x,
     USet.count x (fst (remove_chars left right))
     = USet.count x left && negb (USet.count x right) /\
     USet.count x (snd (remove_chars left right))
     = USet.count x left && USet.count x right /\
     USet.count x (fst (add_chars left right))
     = USet.count x left || USet.count x right /\
     USet.count x (snd (add_chars left right))
     = negb (USet.count x left) && USet.count x right) /\
  ordered (fst (remove_chars left right)) /\ ordered (snd (remove_chars left right)) /\
  ordered (fst (add_chars left right)) /\ ordered (snd (add_chars left right)).
Proof.
  split.
  - intros x. rewrite count_remove_chars_left, count_remove_chars_result,
      count_add_chars_left, count_add_chars_result. auto.
  - destruct (remove_chars_ordered left right Hl), (add_chars_ordered left right Hl).
    auto.
Qed.

Lemma remove_chars_add_chars_spec_witness :
  ordered (snd (remove_chars [1; 3; 5] [5; 1; 2])).
Proof.
  refine (proj1 (proj2 (proj2 (remove_chars_add_chars_spec [1; 3; 5] [5; 1; 2] _)))).
  exists 0. simpl. lia.
Defined.

(** ** More on the range view *)

Lemma step_from_back_length (st : list CharacterRange) (c : Z) :
  (length (step_from_back st c) <= S (length st))%nat.
Proof.
  destruct st as [|r1 [|r2 rest]]; simpl.
  - lia.
  - destruct ((rmin r1 <? rmax r1) && (rmax r1 =? wrap32 (c - 1))); simpl; lia.
  - destruct (rmax r2 =? wrap32 (c - 2)); simpl; [lia|].
    destruct ((rmin r1 <? rmax r1) && (rmax r1 =? wrap32 (c - 1))); simpl; lia.
Qed.

Lemma fold_from_back_length (chars : USet.t) :
  forall st, (length (fold_left step_from_back chars st) <= length chars + length st)%nat.
Proof.
  induction chars as [|c chars IH]; intros st; simpl; [lia|].
  specialize (IH (step_from_back st c)).
  pose proof (step_from_back_length st c). lia.
Qed.

(** Every range that [consolidate_ranges] returns starts and ends at a
    stored point, there are never more ranges than stored points, and there
    is no range exactly when there is no stored point. *)
Theorem consolidate_ranges_endpoints (chars : USet.t) (Hwf : USet.wf chars) :
  (forall r, In r (consolidate_ranges chars) ->
             In (rmin r) chars /\ In (rmax r) chars) /\
  (length (consolidate_ranges chars) <= length chars)%nat /\
  (consolidate_ranges chars = [] <-> chars = []).
Proof.
  destruct (consolidate_ranges_cover chars Hwf) as [Hcov Hrng].
  split; [|split].
  - intros r Hin. specialize (Hrng r Hin).
    split; apply count_true_In; rewrite <- Hcov; apply existsb_exists; exists r;
      (split; [exact Hin|]); unfold in_range; apply andb_true_intro;
      split; apply Z.leb_le; lia.
  - unfold consolidate_ranges.
    change (@nil CharacterRange) with (rev (@nil CharacterRange)).
    rewrite consolidate_fold_rev, length_rev.
    pose proof (fold_from_back_length chars []). simpl in *. lia.
  - split.
    + intros E. apply count_none_nil. intros x. now rewrite <- Hcov, E.
    + intros ->. reflexivity.
Qed.

Lemma consolidate_ranges_endpoints_witness :
  (length (consolidate_ranges [1; 2; 3; 7; 8; 10]%Z)
   <= length ([1; 2; 3; 7; 8; 10]%Z : USet.t))%nat.
Proof.
  refine (proj1 (proj2 (consolidate_ranges_endpoints [1; 2; 3; 7; 8; 10] _))).
  split; [simpl; lia|]. repeat constructor; unfold UINT32_MOD; lia.
Defined.

(** ** The round trip through ranges, up to [operator==] *)

Lemma build_canonical (fuel : nat) (ops : list edit) :
  forall s A, canonical s -> build fuel ops s = Some A ->
              canonical A /\ includes_all A = includes_all s.
Proof.
  induction ops as [|e ops IH]; intros s A Hs; simpl.
  - intros [=]. now subst.
  - destruct (apply_edit fuel e s) as [s'|] eqn:E; [|discriminate]. intros H.
    assert (canonical s' /\ includes_all s' = includes_all s) as [Hs' Hf].
    { destruct e; simpl in E;
        [eapply include_canonical | eapply exclude_canonical]; eauto. }
    destruct (IH s' A Hs' H) as [HA HfA]. split; [exact HA | congruence].
Qed.

Lemma reinclude_canonical (fuel : nat) (v : Vec.t) :
  forall s A, canonical s -> reinclude fuel v s = Some A ->
              canonical A /\ includes_all A = includes_all s.
Proof.
  induction v as [|r v IH]; intros s A Hs; simpl.
  - intros [=]. now subst.
  - destruct (include fuel (rmin r) (rmax r) s) as [s'|] eqn:E; [|discriminate].
    intros H. destruct (include_canonical _ _ _ _ _ Hs E) as [Hs' Hf].
    destruct (IH s' A Hs' H) as [HA HfA]. split; [exact HA | congruence].
Qed.

Lemma canonical_new : canonical CharacterSet_new.
Proof. repeat split; apply ordered_nil. Qed.

(** For a set [A] built from a fresh set by [include] and [exclude] calls,
    re-including the ranges of [included_ranges] into a fresh set returns a
    set with the very fields of [A], so that [operator==] holds between the
    two. *)
Theorem included_ranges_round_trip_equal (fuel : nat) (ops : list edit) (A : CharacterSet)
    (Htyped : Forall edit_typed ops)
    (Hbuilt : build fuel ops CharacterSet_new = Some A) :
  exists fuel', reinclude fuel' (included_ranges A) CharacterSet_new = Some A.
Proof.
  assert (Hnew : direct_below_max CharacterSet_new).
  { split; [reflexivity|]. split; [exact I | constructor]. }
  destruct (build_direct_below_max fuel ops _ A Htyped Hnew Hbuilt) as [Hd Hb].
  destruct (build_canonical fuel ops _ A canonical_new Hbuilt) as [HA _].
  destruct (consolidate_ranges_cover _ (below_max_wf _ Hb)) as [Hcov Hrng].
  destruct (reinclude_returns (S (Z.to_nat UINT32_MAX)) (included_ranges A)
              (Nat.lt_succ_diag_r _) CharacterSet_new eq_refl) as (A' & HA' & Hmem).
  - intros r Hin. split; [now apply Hrng|].
    assert (Hc : USet.count (rmax r) (included_chars A) = true).
    { rewrite <- Hcov. apply existsb_exists. exists r. split; [exact Hin|].
      unfold in_range. specialize (Hrng r Hin). apply andb_true_intro.
      split; apply Z.leb_le; lia. }
    apply count_true_In in Hc. destruct Hb as [_ Hb].
    rewrite Forall_forall in Hb. now apply Hb.
  - exists (S (Z.to_nat UINT32_MAX)). rewrite HA'. f_equal.
    destruct (reinclude_canonical _ _ _ A' canonical_new HA') as [HcA' HfA'].
    apply canonical_ext; auto.
    + simpl in HfA'. congruence.
    + intros p. rewrite Hmem. unfold included_ranges. rewrite Hcov.
      unfold member. rewrite Hd. reflexivity.
Qed.

Lemma included_ranges_round_trip_equal_witness :
  exists fuel',
    reinclude fuel' (included_ranges (mkCharacterSet false [1; 3; 7; 8] []))
      CharacterSet_new = Some (mkCharacterSet false [1; 3; 7; 8] []).
Proof.
  apply (included_ranges_round_trip_equal 10 [Include 1 3; Include 7 8; Exclude 2 2]).
  - repeat constructor; unfold UINT32_MOD; lia.
  - reflexivity.
Defined.

(** ** The single-point overloads *)

Lemma add_range_point (fuel : nat) (chars : USet.t) (c : Z) :
  0 <= c < UINT32_MAX ->
  add_range (S (S fuel)) chars c c = Some (USet.insert_key c chars).
Proof.
  intros Hc. simpl. rewrite wrap32_succ by exact Hc.
  destruct (Z.leb_spec c c); [|lia]. destruct (Z.leb_spec (c + 1) c); [lia|].
  reflexivity.
Qed.

Lemma remove_range_point (fuel : nat) (chars : USet.t) (c : Z) :
  0 <= c < UINT32_MAX ->
  remove_range (S (S fuel)) chars c c = Some (USet.erase_key c chars).
Proof.
  intros Hc. simpl. rewrite wrap32_succ by exact Hc.
  destruct (Z.leb_spec c c); [|lia]. destruct (Z.leb_spec (c + 1) c); [lia|].
  reflexivity.
Qed.

(** For a code point [c] below [UINT32_MAX], [include(c)] and [exclude(c)]
    return after one round of the loop; [c] is then a member, respectively
    no member, and the membership of every other point is unchanged, in
    direct and in complement form. *)
Theorem include1_exclude1_spec (fuel : nat) (c : Z) (s : CharacterSet)
    (Hc : 0 <= c < UINT32_MAX) :
  exists s1 s2,
    include1 (S (S fuel)) c s = Some s1 /\
    exclude1 (S (S fuel)) c s = Some s2 /\
    forall p, member p s1 = (p =? c) || member p s /\
              member p s2 = negb (p =? c) && member p s.
Proof.
  unfold include1, exclude1, include, exclude.
  rewrite !add_range_point, !remove_range_point by exact Hc.
  destruct (includes_all s) eqn:E; eexists _, _; repeat split;
    unfold member; simpl; rewrite E, ?count_insert_key, ?count_erase_key;
    destruct (p =? c), (USet.count p _); reflexivity.
Qed.

Lemma include1_exclude1_spec_witness :
  exists s1 s2,
    include1 2 7 (mkCharacterSet true [] [0; 7]) = Some s1 /\
    exclude1 2 7 (mkCharacterSet true [] [0; 7]) = Some s2 /\
    forall p, member p s1 = (p =? 7) || member p (mkCharacterSet true [] [0; 7]) /\
              member p s2 = negb (p =? 7) && member p (mkCharacterSet true [] [0; 7]).
Proof.
  apply (include1_exclude1_spec 0 7 (mkCharacterSet true [] [0; 7])).
  unfold UINT32_MAX. lia.
Defined.

(** [include_all()] followed by [include(0)] is the set of all code points:
    complement form with nothing excluded, whatever the receiver held. *)
Theorem include_all_include_zero (fuel : nat) (s : CharacterSet) :
  include1 (S (S fuel)) 0 (include_all s) = Some (mkCharacterSet true [] []) /\
  forall p, member p (mkCharacterSet true [] []) = true.
Proof.
  split; [|reflexivity].
  unfold include1, include. simpl includes_all. cbv iota.
  rewrite remove_range_point by (unfold UINT32_MAX; lia). reflexivity.
Qed.
